(** * Inline-assembly lowering of the GDC front end

    A shallow embedding of [d/asmstmt.cc]: the machine-specific
    [AsmStatement::toIR], the extended form's [ExtAsmStatement::semantic],
    and the private-label helper.

    Conventions.  C integers are [Z] with the wrap-around written out
    ([int32], [uint32]); the instruction template is the byte string
    [insnTemplate[0 .. insnTemplateLen)]; the local [int arg_map[10]] is a
    [list Z] of length ten, read with [!!!] and written with [<[i:=v]>];
    [assert] aborts the compiler, [this->error] appends to the error log. *)

From Stdlib Require Import ZArith Ascii String.
From stdpp Require Import prelude strings pretty.

Local Open Scope Z_scope.

(** ** Machine integers *)

(** [int] is 32 bits wide on every target of this front end. *)
Definition int32 (z : Z) : Z := (z + 2 ^ 31) mod 2 ^ 32 - 2 ^ 31.

(** Conversion to [unsigned]. *)
Definition uint32 (z : Z) : Z := z mod 2 ^ 32.

(** [HOST_WIDE_INT], taken as 64 bits wide. *)
Definition hwi (z : Z) : Z := (z + 2 ^ 63) mod 2 ^ 64 - 2 ^ 63.

(** Storing an [int] into a [char]: the low eight bits are kept. *)
Definition char_of_int (z : Z) : ascii := ascii_of_N (Z.to_N (z mod 256)).

(** Integer promotion of a template byte whose code is below 128 (the only
    ones the rewriting loop distinguishes). *)
Definition int_of_char (c : ascii) : Z := Z.of_N (N_of_ascii c).

(** ** The operand descriptors *)

Inductive AsmArgType : Set :=
| Arg_Integer
| Arg_Pointer
| Arg_Memory
| Arg_FrameRelative
| Arg_LocalSize
| Arg_Dollar.

Inductive AsmArgMode : Set :=
| Mode_Input
| Mode_Output
| Mode_Update.

(** The expression nodes of the front end, by the [op] tag the lowering
    inspects.  [StringExp] carries its character size and its bytes. *)
Inductive TOK : Set := TOKvar | TOKdsymbol | TOKfloat64 | TOKstring | TOKother.

Inductive Expression : Set :=
| VarExp (var : N)
| DsymbolExp (s : N)
| RealExp (value : N)
| StringExp (sz : Z) (str : string)
| OtherExp (id : N).

Definition op (e : Expression) : TOK :=
  match e with
  | VarExp _ => TOKvar
  | DsymbolExp _ => TOKdsymbol
  | RealExp _ => TOKfloat64
  | StringExp _ _ => TOKstring
  | OtherExp _ => TOKother
  end.

Record AsmArg : Set := mkAsmArg {
  type : AsmArgType;
  expr : Expression;
  mode : AsmArgMode
}.

Record AsmCode : Set := mkAsmCode {
  insnTemplate : string;
  args : list AsmArg;
  moreRegs : Z;
  dollarLabel : Z;
  clobbersMemory : Z
}.

(** The fields of [AsmStatement] that lowering reads. *)
Record AsmStatement : Set := mkAsmStatement {
  asmcode : option AsmCode;
  regs : Z
}.

(** ** Backend trees *)

Inductive tree : Set :=
| Stree (var : N)
| LabelTree (s : N)
| VarDecl (serial : N) (initial : tree)
| AddrExpr (t : tree)
| IntegerCst (v : Z)
| ExprTree (e : Expression).

Definition DECL_P (t : tree) : bool :=
  match t with
  | Stree _ | LabelTree _ | VarDecl _ _ => true
  | _ => false
  end.

(** An operand list built by a [ListMaker]: each entry is the constraint
    string and the operand value. *)
Definition operand_list : Set := list (string * tree).

(** The [ASM_EXPR] node of [d_build_asm_stmt]. *)
Record AsmExpr : Set := mkAsmExpr {
  asm_string : string;
  asm_outputs : operand_list;
  asm_inputs : operand_list;
  asm_clobbers : list string;
  asm_volatile : bool;
  asm_input_p : bool
}.

(** The state lowering runs in: the function being compiled, the statement
    list [addExp] appends to, the object file's unique-name counter and
    read-only data, the declarations marked addressable, and the errors
    reported so far. *)
Record IRState : Set := mkIRState {
  naked : bool;
  x_frame_offset : Z;
  statementList : list AsmExpr;
  uniqueName : N;
  rodc : list tree;
  addressable : list tree;
  errors : list string
}.

Definition addExp (t : AsmExpr) (irs : IRState) : IRState :=
  mkIRState (naked irs) (x_frame_offset irs) (statementList irs ++ [t])
            (uniqueName irs) (rodc irs) (addressable irs) (errors irs).

Definition error (msg : string) (irs : IRState) : IRState :=
  mkIRState (naked irs) (x_frame_offset irs) (statementList irs)
            (uniqueName irs) (rodc irs) (addressable irs) (errors irs ++ [msg]).

Definition set_addressable (t : tree) (irs : IRState) : IRState :=
  mkIRState (naked irs) (x_frame_offset irs) (statementList irs)
            (uniqueName irs) (rodc irs) (addressable irs ++ [t]) (errors irs).

(** [giveDeclUniqueName] followed by [rodc]: the anonymous constant takes
    the next serial and is queued as read-only data. *)
Definition anon_constant (init : tree) (irs : IRState) : tree * IRState :=
  let cnst := VarDecl (uniqueName irs) init in
  (cnst,
   mkIRState (naked irs) (x_frame_offset irs) (statementList irs)
             (N.succ (uniqueName irs)) (rodc irs ++ [cnst]) (addressable irs)
             (errors irs)).

(** How a run of lowering code ends. *)
Inductive outcome (A : Type) : Type :=
| Normal (a : A)
| Returned
| AssertFailed.
Arguments Normal {A} a.
Arguments Returned {A}.
Arguments AssertFailed {A}.

(** Modelled from the spec: [ListMaker::cons] (d-codegen.h is not among the
    sources) adds the entry at the end, so the lists keep declaration
    order. *)
Definition cons_ {A : Type} (l : list A) (x : A) : list A := l ++ [x].

(** The interned constraint strings. *)
Definition i_cns : string := "i".
Definition p_cns : string := "p".
Definition m_cns : string := "m".
Definition mw_cns : string := "=m".
Definition mrw_cns : string := "+m".
Definition memory_name : string := "memory".

(** ** The extended form *)

Module Ext.
Record ExtAsmStatement : Set := mkExtAsmStatement {
  insnTemplate : Expression;
  args : option (list Expression);
  argNames : list (option string);
  argConstraints : list Expression;
  nOutputArgs : Z;
  clobbers : option (list Expression)
}.
End Ext.

(** ** The private label *)

(** [d_format_priv_asm_label] and the [strcat] of the colon. *)
Definition d_format_priv_asm_label (n : Z) : string :=
  ".LDASM" +:+ pretty (uint32 n).

Definition d_expand_priv_asm_label (irs : IRState) (n : Z) : IRState :=
  let buf := d_format_priv_asm_label n +:+ ":" in
  addExp (mkAsmExpr buf [] [] [] true true) irs.

(** ** Template rewriting *)

Definition is_digit (c : ascii) : bool :=
  (int_of_char "0" <=? int_of_char c) && (int_of_char c <=? int_of_char "9").

Definition is_pct (c : ascii) : bool := int_of_char c =? int_of_char "%".

(** The slot of [arg_map] a template digit selects. *)
Definition digit_slot (c : ascii) : nat :=
  Z.to_nat (int_of_char c - int_of_char "0").

(** The [while (p < q)] loop over the template, [pct] being the flag of the
    same name.  A byte that is neither a digit nor a percent sign leaves
    [pct] as it is. *)
Fixpoint rewrite_template (arg_map : list Z) (pct : bool) (p : string) : string :=
  match p with
  | EmptyString => EmptyString
  | String c p' =>
      if pct then
        if is_digit c then
          String (char_of_int (int_of_char "0" + arg_map !!! digit_slot c))
                 (rewrite_template arg_map false p')
        else if is_pct c then String c (rewrite_template arg_map false p')
        else String c (rewrite_template arg_map pct p')
      else if is_pct c then String c (rewrite_template arg_map true p')
      else String c (rewrite_template arg_map pct p')
  end.

(** ** Remapping the argument numbers *)

(** One turn of the second loop. *)
Definition remap_step (n_outputs : Z) (arg_map : list Z) (i : nat) : list Z :=
  if arg_map !!! i <? 0
  then <[i := int32 (int32 (int32 (- (arg_map !!! i)) - 1) + n_outputs)]> arg_map
  else arg_map.

Definition remap (dim : nat) (n_outputs : Z) (arg_map : list Z) : list Z :=
  foldl (remap_step n_outputs) arg_map (seq 0 dim).

(** ** Sample collaborators

    A register table, a frame layout and expression services used to run
    the model on concrete statements. *)

Definition sample_regInfo (i : nat) : string := "r" +:+ pretty i.

Definition sample_frame (t : tree) : option Z :=
  match t with
  | Stree 1%N => Some (-8)
  | Stree 2%N => Some 16
  | _ => None
  end.

(** The shift unit of an x86 keeps the low five bits of the count. *)
Definition x86_shl (c : Z) : Z := Z.shiftl 1 (c mod 32).

Definition sample_garbage (i : nat) : Z := 1000 + Z.of_nat i.

Definition sample_irs (is_naked : bool) : IRState :=
  mkIRState is_naked (-24) [] 0%N [] [] [].

Definition sample_semantic (e : Expression) : Expression * list string :=
  (e, []).

Definition sample_optimize (flags : Z) (e : Expression) : Expression * list string :=
  (e, []).

Definition sample_modifiableLvalue (e : Expression) : Expression * list string :=
  match e with
  | VarExp _ => (e, [])
  | _ => (e, ["not an lvalue"%string])
  end.

(** ** Sample statements *)

(** An output operand declared before an input operand. *)
Definition code_plain : AsmCode :=
  mkAsmCode "mov %0, %1"
    [mkAsmArg Arg_Memory (VarExp 5) Mode_Output;
     mkAsmArg Arg_Integer (OtherExp 7) Mode_Input] 0 0 0.

(** An escaped percent sign before a digit. *)
Definition code_escaped : AsmCode :=
  mkAsmCode "%%0" [mkAsmArg Arg_Integer (OtherExp 7) Mode_Input] 0 0 0.

(** An input operand declared before an output operand. *)
Definition code_swap : AsmCode :=
  mkAsmCode "mov %1, %0"
    [mkAsmArg Arg_Integer (OtherExp 7) Mode_Input;
     mkAsmArg Arg_Memory (VarExp 5) Mode_Output] 0 0 0.

(** The same operands under an operand modifier. *)
Definition code_modifier : AsmCode :=
  mkAsmCode "lea %a1, %0"
    [mkAsmArg Arg_Integer (OtherExp 7) Mode_Input;
     mkAsmArg Arg_Memory (VarExp 5) Mode_Output] 0 0 0.

(** Register masks, the memory flag and a frame-relative write. *)
Definition code_clobbers : AsmCode :=
  mkAsmCode "mov %0, %%eax"
    [mkAsmArg Arg_FrameRelative (VarExp 1) Mode_Output] 1 4 1.

(** A frame-relative operand on a variable without a frame offset. *)
Definition code_not_frame : AsmCode :=
  mkAsmCode "mov %0, %1"
    [mkAsmArg Arg_Memory (RealExp 3) Mode_Update;
     mkAsmArg Arg_FrameRelative (VarExp 9) Mode_Output] 0 0 0.

Definition code_dollar : AsmCode :=
  mkAsmCode "jmp %1"
    [mkAsmArg Arg_Integer (OtherExp 7) Mode_Input;
     mkAsmArg Arg_Dollar (OtherExp 8) Mode_Input] 0 0 0.

(** Eleven operands. *)
Definition code_eleven : AsmCode :=
  mkAsmCode "nop" (replicate 11 (mkAsmArg Arg_Integer (OtherExp 7) Mode_Input))
            0 0 0.

(** One operand, and a template digit naming a second. *)
Definition code_digit : AsmCode :=
  mkAsmCode "%1" [mkAsmArg Arg_Integer (OtherExp 7) Mode_Input] 0 0 0.

Definition stmt (code : AsmCode) : AsmStatement := mkAsmStatement (Some code) 5.

Definition sample_ext : Ext.ExtAsmStatement :=
  Ext.mkExtAsmStatement (OtherExp 1)
    (Some [OtherExp 2; VarExp 3; OtherExp 4])
    [None; None; None]
    [StringExp 1 "=r"; OtherExp 9; StringExp 2 "r"]
    2
    (Some [OtherExp 3; StringExp 1 "memory"; OtherExp 5]).

(** ** The statement as source text: [AsmStatement::toCBuffer] *)

Module Lexer.
(** The token kinds [toCBuffer] tells apart; [TOKother] stands for every
    other kind (identifiers, numbers, operators). *)
Inductive TOK : Set :=
| TOKlparen | TOKrparen | TOKlbracket | TOKrbracket
| TOKcolon | TOKsemicolon | TOKcomma
| TOKstring | TOKcharv | TOKwcharv | TOKdcharv
| TOKother.

(** A token of the [next]-linked list: its kind and its text
    ([Token::toChars]). *)
Record Token : Set := mkToken {
  value : TOK;
  toChars : string
}.
End Lexer.

(** The [switch] of the loop body: [nsep] is clear for brackets,
    punctuation and literals. *)
Definition token_nsep (t : Lexer.Token) : bool :=
  match Lexer.value t with
  | Lexer.TOKlparen | Lexer.TOKrparen | Lexer.TOKlbracket | Lexer.TOKrbracket
  | Lexer.TOKcolon | Lexer.TOKsemicolon | Lexer.TOKcomma
  | Lexer.TOKstring | Lexer.TOKcharv | Lexer.TOKwcharv | Lexer.TOKdcharv => false
  | Lexer.TOKother => true
  end.

(** The [for] loop over the tokens, [sep] being the flag of the same name
    and [buf] the text written so far. *)
Fixpoint toCBuffer_tokens (sep : bool) (tokens : list Lexer.Token) (buf : string)
  : string :=
  match tokens with
  | [] => buf
  | t :: rest =>
      let nsep := token_nsep t in
      let buf := if sep && nsep then buf +:+ " " else buf in
      toCBuffer_tokens nsep rest (buf +:+ Lexer.toChars t)
  end.

(** [nl] is what [OutBuffer::writenl] writes on the host. *)
Definition AsmStatement_toCBuffer (nl : string) (tokens : list Lexer.Token)
    (buf : string) : string :=
  toCBuffer_tokens false tokens (buf +:+ "asm { ") +:+ "; }" +:+ nl.

(** ** [AsmStatement::syntaxCopy] *)

(** On the fields lowering reads: the constructor clears [asmcode] and
    [regs]; the copy then takes the [asmcode] pointer of the original,
    while [regs] is assigned from the copy itself and so stays clear. *)
Definition AsmStatement_syntaxCopy (this : AsmStatement) : AsmStatement :=
  let a_s := mkAsmStatement None 0 in
  let a_s := mkAsmStatement (asmcode this) (regs a_s) in
  mkAsmStatement (asmcode a_s) (regs a_s).

(** ** Lowering the extended form *)

(** [naturalString]: both assertions, then the bytes of the string. *)
Definition naturalString (e : Expression) : outcome string :=
  match e with
  | StringExp sz str => if sz =? 1 then Normal str else AssertFailed
  | _ => AssertFailed
  end.

(** An operand entry of the extended form: the optional name and the
    constraint (the purpose of the list node), and the value. *)
Definition ext_operand : Set := (option string * string) * tree.

(** The arguments of the one call to [IRState::doAsm]. *)
Record doAsm_call : Set := mk_doAsm {
  call_insnt : string;
  call_outputs : list ext_operand;
  call_inputs : list ext_operand;
  call_clobbers : list string
}.

(** A checked statement of the extended form: one output, one input. *)
Definition sample_ext_checked : Ext.ExtAsmStatement :=
  Ext.mkExtAsmStatement (StringExp 1 "mov %1, %0")
    (Some [VarExp 3; OtherExp 4])
    [Some "dst"%string; None]
    [StringExp 1 "=r"; StringExp 1 "r"]
    1
    (Some [StringExp 1 "memory"]).

(** The tokens of [mov EAX, [EBX+4];]. *)
Definition sample_tokens : list Lexer.Token :=
  [Lexer.mkToken Lexer.TOKother "mov"; Lexer.mkToken Lexer.TOKother "EAX";
   Lexer.mkToken Lexer.TOKcomma ","; Lexer.mkToken Lexer.TOKlbracket "[";
   Lexer.mkToken Lexer.TOKother "EBX"; Lexer.mkToken Lexer.TOKother "+";
   Lexer.mkToken Lexer.TOKother "4"; Lexer.mkToken Lexer.TOKrbracket "]";
   Lexer.mkToken Lexer.TOKsemicolon ";"].


Section Lowering.

(** The target register table of d-asm-i386.h ([regInfo[i].gccName]). *)
Variable regInfo : nat -> string.

(** The frame-layout oracle [getFrameRelativeValue]. *)
Variable getFrameRelativeValue : tree -> option Z.

(** [Expression::toElem]. *)
Variable toElem : Expression -> tree.

(** What the machine yields for [1 << c] when [c] is not in [0, 32): the
    language leaves it undefined. *)
Variable shl_out_of_range : Z -> Z.

(** The indeterminate contents of the ten slots of [arg_map] on entry. *)
Variable stack_garbage : nat -> Z.

(** ** Resolving one operand *)

(** What the [switch] leaves behind for an operand: its value, its
    constraint, [is_input], and the running [clobbers_mem]. *)
Record resolved : Set := mkResolved {
  arg_val : tree;
  cns : string;
  is_input : bool;
  clobbers_mem_after : bool
}.

Definition resolve_Memory (arg : AsmArg) (clobbers_mem : bool) (irs : IRState)
  : outcome resolved * IRState :=
  let '(v, irs1) :=
    match expr arg with
    | VarExp var => (Stree var, irs)
    | RealExp _ => anon_constant (toElem (expr arg)) irs
    | e => (toElem e, irs)
    end in
  let irs2 := if DECL_P v then set_addressable v irs1 else irs1 in
  match mode arg with
  | Mode_Input => (Normal (mkResolved v m_cns true clobbers_mem), irs2)
  | Mode_Output => (Normal (mkResolved v mw_cns false clobbers_mem), irs2)
  | Mode_Update => (Normal (mkResolved v mrw_cns false clobbers_mem), irs2)
  end.

Definition resolve_arg (arg : AsmArg) (clobbers_mem : bool) (irs : IRState)
  : outcome resolved * IRState :=
  match type arg with
  | Arg_Integer =>
      (Normal (mkResolved (toElem (expr arg)) i_cns true clobbers_mem), irs)
  | Arg_Pointer =>
      match expr arg with
      | VarExp var =>
          (Normal (mkResolved (AddrExpr (Stree var)) p_cns true clobbers_mem), irs)
      | DsymbolExp s =>
          (Normal (mkResolved (AddrExpr (LabelTree s)) p_cns true clobbers_mem), irs)
      | _ => (AssertFailed, irs)
      end
  | Arg_Memory => resolve_Memory arg clobbers_mem irs
  | Arg_FrameRelative =>
      match expr arg with
      | VarExp var =>
          match getFrameRelativeValue (Stree var) with
          | Some var_frame_offset =>
              (Normal (mkResolved (IntegerCst var_frame_offset) i_cns true
                         (match mode arg with
                          | Mode_Input => clobbers_mem
                          | _ => true
                          end)), irs)
          | None => (Returned, error "argument not frame relative" irs)
          end
      | _ => (AssertFailed, irs)
      end
  | Arg_LocalSize =>
      let var_frame_offset := x_frame_offset irs in
      let var_frame_offset :=
        if var_frame_offset <? 0 then hwi (- var_frame_offset)
        else var_frame_offset in
      (Normal (mkResolved (IntegerCst var_frame_offset) i_cns true clobbers_mem), irs)
  | Arg_Dollar => (AssertFailed, irs)
  end.

(** ** The first loop: operands in declaration order *)

Record Locals : Set := mkLocals {
  inputs : operand_list;
  outputs : operand_list;
  clobbers_mem : bool;
  input_idx : Z;
  n_outputs : Z;
  arg_map : list Z
}.

Definition locals0 (code : AsmCode) : Locals :=
  mkLocals [] [] (negb (clobbersMemory code =? 0)) 0 0
           (stack_garbage <$> seq 0 10).

(** The tail of the loop body, after the [switch]. *)
Definition record_arg (i : nat) (r : resolved) (l : Locals) : Locals :=
  if is_input r then
    let input_idx' := int32 (input_idx l - 1) in
    mkLocals (cons_ (inputs l) (cns r, arg_val r)) (outputs l)
             (clobbers_mem_after r) input_idx' (n_outputs l)
             (<[i := input_idx']> (arg_map l))
  else
    mkLocals (inputs l) (cons_ (outputs l) (cns r, arg_val r))
             (clobbers_mem_after r) (input_idx l) (int32 (n_outputs l + 1))
             (<[i := n_outputs l]> (arg_map l)).

Fixpoint toIR_args (rest : list AsmArg) (i : nat) (l : Locals) (irs : IRState)
  : outcome Locals * IRState :=
  match rest with
  | [] => (Normal l, irs)
  | arg :: rest' =>
      match resolve_arg arg (clobbers_mem l) irs with
      | (Normal r, irs') => toIR_args rest' (S i) (record_arg i r l) irs'
      | (Returned, irs') => (Returned, irs')
      | (AssertFailed, irs') => (AssertFailed, irs')
      end
  end.

(** ** The clobber list *)

(** [1 << c] on [int]. *)
Definition shl1 (c : Z) : Z :=
  if (0 <=? c) && (c <? 32) then int32 (Z.shiftl 1 c) else shl_out_of_range c.

(** [x & y] with [x] unsigned: the [int] operand is converted first. *)
Definition and_u (x y : Z) : Z := Z.land (uint32 x) (uint32 y).

Definition regs_step (regs_ : Z) (clobbers : list string) (i : nat) : list string :=
  if and_u regs_ (shl1 (Z.of_nat i)) =? 0 then clobbers
  else cons_ clobbers (regInfo i).

Definition moreRegs_step (moreRegs_ : Z) (clobbers : list string) (i : nat)
  : list string :=
  if and_u moreRegs_ (shl1 (Z.of_nat i - 32)) =? 0 then clobbers
  else cons_ clobbers (regInfo i).

Definition build_clobbers (is_naked : bool) (regs_ moreRegs_ : Z)
    (clobbers_mem_ : bool) : list string :=
  if negb is_naked then
    let clobbers := foldl (regs_step regs_) [] (seq 0 32) in
    let clobbers := foldl (moreRegs_step moreRegs_) clobbers (seq 0 32) in
    if clobbers_mem_ then cons_ clobbers memory_name else clobbers
  else [].

(** ** [AsmStatement::toIR] *)

(** The result is how the call ended, the statement's code with its
    template as the call left it, and the state. *)
Definition AsmStatement_toIR (this : AsmStatement) (irs : IRState)
  : outcome unit * option AsmCode * IRState :=
  match asmcode this with
  | None => (Normal tt, None, irs)
  | Some code =>
      if (10 <? length (args code))%nat then (AssertFailed, Some code, irs)
      else
        match toIR_args (args code) 0 (locals0 code) irs with
        | (Returned, irs') => (Returned, Some code, irs')
        | (AssertFailed, irs') => (AssertFailed, Some code, irs')
        | (Normal l, irs') =>
            let clobbers :=
              build_clobbers (naked irs') (regs this) (moreRegs code)
                             (clobbers_mem l) in
            let arg_map' := remap (length (args code)) (n_outputs l) (arg_map l) in
            let insnt := rewrite_template arg_map' false (insnTemplate code) in
            let code' := mkAsmCode insnt (args code) (moreRegs code)
                                   (dollarLabel code) (clobbersMemory code) in
            let t := mkAsmExpr insnt (outputs l) (inputs l) clobbers true false in
            let irs'' := addExp t irs' in
            let irs'' :=
              if uint32 (dollarLabel code) =? 0 then irs''
              else d_expand_priv_asm_label irs'' (dollarLabel code) in
            (Normal tt, Some code', irs'')
        end
  end.

(** The remap table as it stands when the template is rewritten. *)
Definition final_arg_map (code : AsmCode) (irs : IRState) : option (list Z) :=
  match toIR_args (args code) 0 (locals0 code) irs with
  | (Normal l, _) => Some (remap (length (args code)) (n_outputs l) (arg_map l))
  | _ => None
  end.

(** ** [ExtAsmStatement::semantic] *)

(** The expression services of the front end: each returns the rewritten
    expression and the errors it reported itself. *)
Variable Esemantic : Expression -> Expression * list string.
Variable Eoptimize : Z -> Expression -> Expression * list string.
Variable EmodifiableLvalue : Expression -> Expression * list string.
Variables WANTvalue WANTinterpret : Z.

(** [e->op != TOKstring || ((StringExp * )e)->sz != 1] *)
Definition not_char_string (e : Expression) : bool :=
  match e with
  | StringExp sz _ => negb (sz =? 1)
  | _ => true
  end.

(** [semantic], then [optimize(WANTvalue)], then the test for a constant
    char string, reporting [msg] when it fails. *)
Definition semantic_string (msg : string) (e : Expression)
  : Expression * list string :=
  let '(e1, errs1) := Esemantic e in
  let '(e2, errs2) := Eoptimize WANTvalue e1 in
  (e2, errs1 ++ errs2 ++ (if not_char_string e2 then [msg] else [])).

(** The operand half of the loop body. *)
Definition semantic_operand (nOutputArgs : Z) (i : nat) (e : Expression)
  : Expression * list string :=
  let '(e1, errs1) := Esemantic e in
  let '(e2, errs2) :=
    if Z.of_nat i <? uint32 nOutputArgs then EmodifiableLvalue e1
    else Eoptimize (Z.lor WANTvalue WANTinterpret) e1 in
  (e2, errs1 ++ errs2).

(** The arrays of the statement while the loops run, with the errors
    reported so far.  [None] stands for a read past the end of
    [argConstraints]. *)
Definition sem_state : Set :=
  option (list Expression * list Expression * list string).

Definition semantic_args_step (nOutputArgs : Z) (st : sem_state) (i : nat)
  : sem_state :=
  '(args_, constraints, errs) ← st;
  e ← args_ !! i;
  c ← constraints !! i;
  let '(e', errs1) := semantic_operand nOutputArgs i e in
  let '(c', errs2) :=
    semantic_string "constraint must be a constant char string" c in
  Some (<[i := e']> args_, <[i := c']> constraints, errs ++ errs1 ++ errs2).

Definition semantic_clobbers_step (st : list Expression * list string) (i : nat)
  : list Expression * list string :=
  let '(clobbers_, errs) := st in
  match clobbers_ !! i with
  | Some e =>
      let '(e', errs1) :=
        semantic_string "clobber specification must be a constant char string" e in
      (<[i := e']> clobbers_, errs ++ errs1)
  | None => st
  end.

(** The checked statement and the errors reported, in order. *)
Definition ExtAsmStatement_semantic (this : Ext.ExtAsmStatement)
  : option (Ext.ExtAsmStatement * list string) :=
  let '(insnt, errs0) :=
    semantic_string "instruction template must be a constant char string"
                    (Ext.insnTemplate this) in
  '(args', constraints', errs1) ←
    match Ext.args this with
    | Some args_ =>
        '(a, c, errs) ←
          foldl (semantic_args_step (Ext.nOutputArgs this))
                (Some (args_, Ext.argConstraints this, errs0))
                (seq 0 (length args_));
        Some (Some a, c, errs)
    | None => Some (None, Ext.argConstraints this, errs0)
    end;
  let '(clobbers', errs2) :=
    match Ext.clobbers this with
    | Some clobbers_ =>
        let '(cl, errs) :=
          foldl semantic_clobbers_step (clobbers_, errs1)
                (seq 0 (length clobbers_)) in
        (Some cl, errs)
    | None => (None, errs1)
    end in
  Some (Ext.mkExtAsmStatement insnt args' (Ext.argNames this) constraints'
          (Ext.nOutputArgs this) clobbers',
        errs2).

(** ** Vocabulary of the statements below *)

(** An operand takes the output path exactly when it is a [Arg_Memory]
    operand whose mode is not [Mode_Input]. *)
Definition is_output (arg : AsmArg) : bool :=
  match type arg, mode arg with
  | Arg_Memory, Mode_Output | Arg_Memory, Mode_Update => true
  | _, _ => false
  end.

Definition is_input_arg (arg : AsmArg) : bool := negb (is_output arg).

Definition n_out (l : list AsmArg) : nat := length (List.filter is_output l).
Definition n_in (l : list AsmArg) : nat := length (List.filter is_input_arg l).

(** An entry of an operand list is what the [switch] computes for [arg] in
    some state. *)
Definition resolves_to (arg : AsmArg) (e : string * tree) : Prop :=
  exists cm irs r irs',
    resolve_arg arg cm irs = (Normal r, irs') /\ e = (cns r, arg_val r).

(** The value of a [Arg_Memory] operand. *)
Definition memory_value (e : Expression) (v : tree) : Prop :=
  match e with
  | VarExp var => v = Stree var
  | RealExp _ => exists serial, v = VarDecl serial (toElem e)
  | _ => v = toElem e
  end.

(** How the [switch] ends for an operand; it depends on the operand and on
    the frame layout only. *)
Inductive fate : Set := Resolves | Reports | Asserts.

Definition arg_fate (arg : AsmArg) : fate :=
  match type arg with
  | Arg_Integer | Arg_Memory | Arg_LocalSize => Resolves
  | Arg_Pointer =>
      match expr arg with
      | VarExp _ | DsymbolExp _ => Resolves
      | _ => Asserts
      end
  | Arg_FrameRelative =>
      match expr arg with
      | VarExp var =>
          match getFrameRelativeValue (Stree var) with
          | Some _ => Resolves
          | None => Reports
          end
      | _ => Asserts
      end
  | Arg_Dollar => Asserts
  end.

(** How the first loop ends: as the first operand that does not resolve. *)
Fixpoint args_fate (l : list AsmArg) : fate :=
  match l with
  | [] => Resolves
  | arg :: l' =>
      match arg_fate arg with
      | Resolves => args_fate l'
      | f => f
      end
  end.

(** The value of [pct] after the loop has run over [p]. *)
Fixpoint scan (pct : bool) (p : string) : bool :=
  match p with
  | EmptyString => pct
  | String c p' =>
      if pct then
        if is_digit c then scan false p'
        else if is_pct c then scan false p'
        else scan pct p'
      else if is_pct c then scan true p'
      else scan pct p'
  end.

(** Bytes that are neither digits nor percent signs. *)
Definition is_modifier (c : ascii) : bool := negb (is_digit c) && negb (is_pct c).

Fixpoint modifiers (p : string) : bool :=
  match p with
  | EmptyString => true
  | String c p' => is_modifier c && modifiers p'
  end.

(** The canonical position of operand [i]. *)
Definition canonical (l : list AsmArg) (i : nat) (arg : AsmArg) : Z :=
  if is_output arg then Z.of_nat (n_out (take i l))
  else Z.of_nat (n_out l + n_in (take i l)).

(** The record of the private label, when the statement asked for one. *)
Definition label_records (code : AsmCode) : list AsmExpr :=
  if uint32 (dollarLabel code) =? 0 then []
  else [mkAsmExpr (d_format_priv_asm_label (dollarLabel code) +:+ ":")
                  [] [] [] true true].

(** The messages of the extended form's checker. *)
Definition constraint_msg : string := "constraint must be a constant char string".
Definition clobber_msg : string :=
  "clobber specification must be a constant char string".
Definition template_msg : string :=
  "instruction template must be a constant char string".

(** The errors the loop body reports for operand [i] and its constraint. *)
Definition operand_errors (n : Z) (i : nat) (ec : Expression * Expression)
  : list string :=
  (semantic_operand n i ec.1).2 ++ (semantic_string constraint_msg ec.2).2.

(** ** [ExtAsmStatement::toIR] *)

(** The operand lists while the first loop runs.  The outer [None] stands
    for a read past the end of [argNames] or [argConstraints]. *)
Definition ext_lists : Set :=
  option (outcome (list ext_operand * list ext_operand)).

Definition ext_toIR_step (this : Ext.ExtAsmStatement) (args_ : list Expression)
    (st : ext_lists) (i : nat) : ext_lists :=
  match st with
  | Some (Normal (outputs_, inputs_)) =>
      match args_ !! i, Ext.argNames this !! i, Ext.argConstraints this !! i with
      | Some e, Some name, Some constr =>
          match naturalString constr with
          | Normal c =>
              let p := (name, c) in
              let v := toElem e in
              if Z.of_nat i <? uint32 (Ext.nOutputArgs this)
              then Some (Normal (cons_ outputs_ (p, v), inputs_))
              else Some (Normal (outputs_, cons_ inputs_ (p, v)))
          | _ => Some AssertFailed
          end
      | _, _, _ => None
      end
  | _ => st
  end.

Definition ext_clobbers_step (st : outcome (list string)) (e : Expression)
  : outcome (list string) :=
  match st with
  | Normal tree_clobbers =>
      match naturalString e with
      | Normal c => Normal (cons_ tree_clobbers c)
      | _ => AssertFailed
      end
  | _ => st
  end.

(** The call to [doAsm] the statement ends in, unless an assertion of
    [naturalString] fails first. *)
Definition ExtAsmStatement_toIR (this : Ext.ExtAsmStatement)
  : option (outcome doAsm_call) :=
  match
    match Ext.args this with
    | Some args_ =>
        foldl (ext_toIR_step this args_) (Some (Normal ([], [])))
              (seq 0 (length args_))
    | None => Some (Normal ([], []))
    end
  with
  | None => None
  | Some (Normal (outputs_, inputs_)) =>
      match
        match Ext.clobbers this with
        | Some clobbers_ => foldl ext_clobbers_step (Normal []) clobbers_
        | None => Normal []
        end
      with
      | Normal tree_clobbers =>
          match naturalString (Ext.insnTemplate this) with
          | Normal insnt =>
              Some (Normal (mk_doAsm insnt outputs_ inputs_ tree_clobbers))
          | _ => Some AssertFailed
          end
      | _ => Some AssertFailed
      end
  | Some _ => Some AssertFailed
  end.

(** ** Further vocabulary *)

(** A frame-relative operand that is written through. *)
Definition forces_memory (arg : AsmArg) : bool :=
  match type arg, mode arg with
  | Arg_FrameRelative, Mode_Output | Arg_FrameRelative, Mode_Update => true
  | _, _ => false
  end.

(** Every digit the loop replaces in [p], entered with flag [pct], names a
    slot below [n]. *)
Fixpoint refs_below (n : nat) (pct : bool) (p : string) : bool :=
  match p with
  | EmptyString => true
  | String c p' =>
      if pct then
        if is_digit c then (digit_slot c <? n)%nat && refs_below n false p'
        else if is_pct c then refs_below n false p'
        else refs_below n pct p'
      else if is_pct c then refs_below n true p'
      else refs_below n pct p'
  end.

(** The bytes of a constant char string. *)
Definition string_of (e : Expression) : string :=
  match e with
  | StringExp _ str => str
  | _ => EmptyString
  end.

(** The entry [ExtAsmStatement::toIR] builds for an operand, its name and
    its constraint. *)
Definition ext_entry (x : Expression * option string * Expression) : ext_operand :=
  ((x.1.2, string_of x.2), toElem x.1.1).

(** The separator [toCBuffer] writes before token [i]. *)
Definition separator (tokens : list Lexer.Token) (i : nat) (t : Lexer.Token)
  : string :=
  match i with
  | O => EmptyString
  | S j =>
      match tokens !! j with
      | Some prev => if token_nsep prev && token_nsep t then " " else EmptyString
      | None => EmptyString
      end
  end.

(** The template, the constraints of the operands and the clobbers are all
    constant char strings.  Without operands the constraints are not
    looked at. *)
Definition ext_checked (this : Ext.ExtAsmStatement) : bool :=
  match Ext.args this with
  | Some _ => forallb (fun c => negb (not_char_string c)) (Ext.argConstraints this)
  | None => true
  end
  && forallb (fun e => negb (not_char_string e)) (default [] (Ext.clobbers this))
  && negb (not_char_string (Ext.insnTemplate this)).

(** The entries of all operands, in declaration order. *)
Definition ext_entries (this : Ext.ExtAsmStatement) : list ext_operand :=
  ext_entry <$> zip (zip (default [] (Ext.args this)) (Ext.argNames this))
                    (Ext.argConstraints this).

(** [argNames] and [argConstraints] run parallel to [args]. *)
Definition ext_parallel (this : Ext.ExtAsmStatement) : Prop :=
  forall a, Ext.args this = Some a ->
    length (Ext.argNames this) = length a /\
    length (Ext.argConstraints this) = length a.


(** * Properties *)

(** ** Machine integers *)

Lemma int32_small z : - 2 ^ 31 <= z < 2 ^ 31 -> int32 z = z.
Proof.
  intros Hz. unfold int32.
  rewrite Z.mod_small by lia. lia.
Qed.

Lemma is_digit_slot c : is_digit c = true -> (digit_slot c < 10)%nat.
Proof.
  unfold is_digit, digit_slot. intros H.
  apply andb_prop in H as [H1 H2].
  apply Z.leb_le in H1, H2.
  change (int_of_char "0") with 48 in *. change (int_of_char "9") with 57 in *.
  lia.
Qed.

(** ** Template rewriting *)

Lemma rewrite_template_length m pct p :
  String.length (rewrite_template m pct p) = String.length p.
Proof.
  revert pct. induction p as [|c p IH]; intros pct; simpl; [done|].
  destruct pct; repeat case_match; simpl; by rewrite IH.
Qed.

Lemma rewrite_template_app m pct p q :
  rewrite_template m pct (p +:+ q) =
  rewrite_template m pct p +:+ rewrite_template m (scan pct p) q.
Proof.
  revert pct. induction p as [|c p IH]; intros pct; simpl; [done|].
  destruct pct; repeat case_match; simpl; by rewrite IH.
Qed.

Lemma rewrite_template_modifier m c p :
  is_digit c = false -> is_pct c = false ->
  rewrite_template m true (String c p) = String c (rewrite_template m true p).
Proof. intros Hd Hp. simpl. by rewrite Hd, Hp. Qed.

(** A byte differs after rewriting only if it is a digit met while [pct]
    is set. *)
Lemma rewrite_template_changed m pct p i c :
  String.get i p = Some c ->
  String.get i (rewrite_template m pct p) <> Some c ->
  is_digit c = true /\ scan pct (String.substring 0 i p) = true.
Proof.
  revert pct i. induction p as [|a p IH]; intros pct i Hget Hne; [done|].
  destruct i as [|i].
  - simpl in Hget. injection Hget as ->.
    simpl in Hne. destruct pct; repeat case_match; simpl in Hne; try done.
  - simpl in Hget. simpl.
    simpl in Hne.
    destruct pct; repeat case_match; simpl in Hne; eauto.
Qed.

(** [pct] is set only after a percent sign met while [pct] was clear and
    followed by modifier bytes. *)
Lemma scan_true_inv p :
  scan false p = true ->
  exists a b, p = a +:+ String "%" b /\ scan false a = false /\
              modifiers b = true.
Proof.
  assert (Hgen : forall pct, scan pct p = true ->
            (pct = true /\ modifiers p = true) \/
            exists a b, p = a +:+ String "%" b /\ scan pct a = false /\
                        modifiers b = true).
  { induction p as [|c p IH]; intros pct H.
    - simpl in H. left. by subst.
    - simpl in H. simpl.
      destruct pct.
      + destruct (is_digit c) eqn:Hd.
        * apply IH in H as [[? _]|(a & b & -> & Ha & Hb)]; [done|].
          right. exists (String c a), b. simpl. by rewrite Hd.
        * destruct (is_pct c) eqn:Hp.
          -- apply IH in H as [[? _]|(a & b & -> & Ha & Hb)]; [done|].
             right. exists (String c a), b. simpl. by rewrite Hd, Hp.
          -- apply IH in H as [[_ Hm]|(a & b & -> & Ha & Hb)].
             ++ left. unfold is_modifier. by rewrite Hd, Hp, Hm.
             ++ right. exists (String c a), b. simpl. by rewrite Hd, Hp.
      + destruct (is_pct c) eqn:Hp.
        * apply IH in H as [[_ Hm]|(a & b & -> & Ha & Hb)].
          -- right. exists EmptyString, p. split; [|done].
             simpl. f_equal. unfold is_pct in Hp.
             apply Z.eqb_eq in Hp. unfold int_of_char in Hp.
             apply N2Z.inj in Hp.
             rewrite <- (ascii_N_embedding c), Hp. done.
          -- right. exists (String c a), b. simpl. by rewrite Hp.
        * apply IH in H as [[? _]|(a & b & -> & Ha & Hb)]; [done|].
          right. exists (String c a), b. simpl. by rewrite Hp. }
  intros H. apply Hgen in H as [[? _]|H]; done.
Qed.

Lemma is_digit_not_pct c : is_digit c = true -> is_pct c = false.
Proof.
  unfold is_digit, is_pct. intros H.
  apply andb_prop in H as [H1 _]. apply Z.leb_le in H1.
  apply Z.eqb_neq.
  change (int_of_char "0") with 48 in *. change (int_of_char "%") with 37 in *.
  lia.
Qed.

(** C3, as amended.  While a percent sign is pending, a byte that is neither
    a decimal digit nor a percent sign is left untouched and the pending
    state is kept: rewriting goes on with [pct] still set.  Hence in a
    percent sign, one modifier byte and a digit (as in "%a1") the digit is
    replaced through the remap table. *)
Theorem modifier_keeps_pending m pct pre c d p :
  scan pct pre = true ->
  is_digit c = false -> is_pct c = false -> is_digit d = true ->
  rewrite_template m pct (pre +:+ String c p) =
    rewrite_template m pct pre +:+ String c (rewrite_template m true p) /\
  scan pct (pre +:+ String c EmptyString) = true /\
  rewrite_template m false (String "%" (String c (String d p))) =
    String "%" (String c
      (String (char_of_int (int_of_char "0" + m !!! digit_slot d))
              (rewrite_template m false p))).
Proof.
  intros Hscan Hd Hp Hdd. split; [|split].
  - rewrite rewrite_template_app, Hscan.
    by rewrite rewrite_template_modifier.
  - clear Hdd. revert pct Hscan.
    induction pre as [|a pre IH]; intros pct Hscan; simpl in *.
    + subst pct. by rewrite Hd, Hp.
    + destruct pct; repeat case_match; auto.
  - cbn [rewrite_template].
    change (is_pct "%") with true. cbv iota.
    by rewrite Hd, Hp, Hdd.
Qed.

(** C8, as amended.  Rewriting keeps the length of the template and changes
    no byte other than a decimal digit met while a percent sign is pending,
    that is, after an unescaped percent sign followed only by bytes that are
    neither digits nor percent signs (the digit need not come immediately
    after the percent sign; the percent sign is unescaped, the flag being
    clear when it is met).  In particular every byte that is not a digit
    is left as it was, and after the two bytes of an escaped percent sign
    the flag is clear, so a digit right after them is not replaced. *)
Theorem rewrite_template_frame m p :
  String.length (rewrite_template m false p) = String.length p /\
  (forall i c, String.get i p = Some c ->
     String.get i (rewrite_template m false p) <> Some c ->
     is_digit c = true /\
     exists a b, String.substring 0 i p = a +:+ String "%" b /\
                 scan false a = false /\ modifiers b = true) /\
  (forall pre d q, scan false pre = false -> is_digit d = true ->
     p = pre +:+ String "%" (String "%" (String d q)) ->
     rewrite_template m false p =
       rewrite_template m false pre +:+
       String "%" (String "%" (String d (rewrite_template m false q)))).
Proof.
  split; [apply rewrite_template_length|]. split.
  - intros i c Hget Hne.
    destruct (rewrite_template_changed _ _ _ _ _ Hget Hne) as [Hd Hs].
    split; [done|]. by apply scan_true_inv.
  - intros pre d q Hpre Hd ->.
    rewrite rewrite_template_app, Hpre.
    cbn [rewrite_template]. change (is_pct "%") with true. cbv iota.
    change (is_digit "%") with false. cbv iota.
    by rewrite (is_digit_not_pct _ Hd).
Qed.

(** ** Resolving operands *)

Lemma resolve_arg_fate arg cm irs :
  match arg_fate arg with
  | Resolves =>
      exists r irs', resolve_arg arg cm irs = (Normal r, irs') /\
        statementList irs' = statementList irs /\
        errors irs' = errors irs /\ naked irs' = naked irs
  | Reports =>
      resolve_arg arg cm irs = (Returned, error "argument not frame relative" irs)
  | Asserts => resolve_arg arg cm irs = (AssertFailed, irs)
  end.
Proof.
  destruct arg as [t e md]. unfold arg_fate, resolve_arg. simpl.
  destruct t; simpl; eauto 10.
  - destruct e; eauto 10.
  - unfold resolve_Memory. simpl.
    destruct e, md; simpl; repeat case_match; simpl; eauto 10.
  - destruct e; eauto. destruct (getFrameRelativeValue _); eauto 10.
Qed.

Lemma resolve_arg_is_input arg cm irs r irs' :
  resolve_arg arg cm irs = (Normal r, irs') -> is_input r = is_input_arg arg.
Proof.
  destruct arg as [t e md]. unfold resolve_arg, is_input_arg, is_output. simpl.
  destruct t; simpl.
  - by intros [= <- _].
  - destruct e; try done; by intros [= <- _].
  - unfold resolve_Memory. simpl.
    destruct (match e with VarExp _ => _ | _ => _ end) as [v irs1].
    destruct md; by intros [= <- _].
  - destruct e; try done. destruct (getFrameRelativeValue _); try done.
    by intros [= <- _].
  - by intros [= <- _].
  - done.
Qed.

(** What the [switch] yields for an [Arg_Memory] operand. *)
Lemma resolves_to_Memory arg e :
  type arg = Arg_Memory -> resolves_to arg e ->
  memory_value (expr arg) e.2 /\
  e.1 = match mode arg with
        | Mode_Input => "m"
        | Mode_Output => "=m"
        | Mode_Update => "+m"
        end.
Proof.
  destruct arg as [t ex md]. simpl. intros -> (cm & irs & r & irs' & Hr & ->).
  unfold resolve_arg, resolve_Memory in Hr. simpl in Hr.
  destruct ex, md; simpl in *; injection Hr as <- _; simpl; eauto.
Qed.

(** The constraint of every entry is one of the five interned strings, by
    the path the operand took. *)
Lemma resolves_to_cns arg e :
  resolves_to arg e ->
  if is_output arg then e.1 = "=m" \/ e.1 = "+m"
  else e.1 = "i" \/ e.1 = "p" \/ e.1 = "m".
Proof.
  destruct arg as [t ex md]. intros (cm & irs & r & irs' & Hr & ->).
  unfold resolve_arg, resolve_Memory, is_output in *. simpl in *.
  destruct t; simpl in *.
  - injection Hr as <- _. auto.
  - destruct ex; try done; injection Hr as <- _; auto.
  - destruct (match ex with VarExp _ => _ | _ => _ end) as [v irs1].
    destruct md; injection Hr as <- _; auto.
  - destruct ex; try done. destruct (getFrameRelativeValue _); try done.
    injection Hr as <- _; auto.
  - injection Hr as <- _. auto.
  - done.
Qed.

(** ** The first loop *)

Lemma toIR_args_fate rest : forall i l irs,
  match args_fate rest with
  | Resolves =>
      exists l' irs', toIR_args rest i l irs = (Normal l', irs') /\
        errors irs' = errors irs
  | Reports =>
      exists irs', toIR_args rest i l irs = (Returned, irs') /\
        errors irs' = errors irs ++ ["argument not frame relative"%string]
  | Asserts =>
      exists irs', toIR_args rest i l irs = (AssertFailed, irs') /\
        errors irs' = errors irs
  end.
Proof.
  induction rest as [|arg rest IH]; intros i l irs; simpl; [eauto|].
  pose proof (resolve_arg_fate arg (clobbers_mem l) irs) as Hr.
  destruct (arg_fate arg).
  - destruct Hr as (r & irs1 & -> & _ & He & _).
    specialize (IH (S i) (record_arg i r l) irs1). rewrite He in IH. exact IH.
  - rewrite Hr. eauto.
  - rewrite Hr. eauto.
Qed.

(** The first loop emits nothing and leaves the function as it is. *)
Lemma toIR_args_frame rest : forall i l irs,
  statementList (toIR_args rest i l irs).2 = statementList irs /\
  naked (toIR_args rest i l irs).2 = naked irs.
Proof.
  induction rest as [|arg rest IH]; intros i l irs; simpl; [done|].
  pose proof (resolve_arg_fate arg (clobbers_mem l) irs) as Hr.
  destruct (arg_fate arg).
  - destruct Hr as (r & irs1 & -> & Hs & _ & Hn).
    rewrite <- Hs, <- Hn. apply IH.
  - by rewrite Hr.
  - by rewrite Hr.
Qed.

Lemma args_fate_lookup l i arg :
  l !! i = Some arg -> arg_fate arg <> Resolves -> args_fate l <> Resolves.
Proof.
  revert i. induction l as [|a l IH]; intros i Hl Hf; [done|].
  destruct i as [|i]; simpl in *.
  - injection Hl as ->. by destruct (arg_fate arg).
  - destruct (arg_fate a); try done. eauto.
Qed.

Lemma args_fate_Reports l i arg :
  l !! i = Some arg -> arg_fate arg = Reports ->
  Forall (fun a => arg_fate a <> Asserts) (take i l) ->
  args_fate l = Reports.
Proof.
  revert i. induction l as [|a l IH]; intros i Hl Hf Hpre; [done|].
  destruct i as [|i]; simpl in *.
  - injection Hl as ->. by rewrite Hf.
  - apply Forall_cons in Hpre as [Ha Hpre].
    destruct (arg_fate a); try done. eauto.
Qed.

Lemma args_fate_Asserts l i arg :
  l !! i = Some arg -> arg_fate arg = Asserts ->
  Forall (fun a => arg_fate a = Resolves) (take i l) ->
  args_fate l = Asserts.
Proof.
  revert i. induction l as [|a l IH]; intros i Hl Hf Hpre; [done|].
  destruct i as [|i]; simpl in *.
  - injection Hl as ->. by rewrite Hf.
  - apply Forall_cons in Hpre as [Ha Hpre].
    rewrite Ha. eauto.
Qed.

(** ** Counting outputs and inputs *)

Lemma n_out_cons a l :
  n_out (a :: l) = ((if is_output a then 1 else 0) + n_out l)%nat.
Proof. unfold n_out. simpl. by destruct (is_output a). Qed.

Lemma n_in_cons a l :
  n_in (a :: l) = ((if is_output a then 0 else 1) + n_in l)%nat.
Proof. unfold n_in, is_input_arg. simpl. by destruct (is_output a). Qed.

Lemma n_out_in_length l : (n_out l + n_in l = length l)%nat.
Proof.
  induction l as [|a l IH]; [done|].
  rewrite n_out_cons, n_in_cons. simpl. destruct (is_output a); lia.
Qed.

Lemma n_out_take_le l i : (n_out (take i l) <= n_out l)%nat.
Proof.
  revert i. induction l as [|a l IH]; intros [|i]; simpl; try (unfold n_out; simpl; lia).
  rewrite !n_out_cons. specialize (IH i). lia.
Qed.

Lemma n_in_take_le l i : (n_in (take i l) <= n_in l)%nat.
Proof.
  revert i. induction l as [|a l IH]; intros [|i]; simpl; try (unfold n_in; simpl; lia).
  rewrite !n_in_cons. specialize (IH i). lia.
Qed.

(** An output at position [i] is counted in every longer prefix. *)
Lemma n_out_take_lt l i j a :
  l !! i = Some a -> is_output a = true -> (i < j)%nat ->
  (n_out (take i l) < n_out (take j l))%nat.
Proof.
  revert i j. induction l as [|b l IH]; intros i j Hl Ha Hij; [done|].
  destruct j as [|j]; [lia|]. destruct i as [|i]; simpl in *.
  - injection Hl as ->. rewrite n_out_cons, Ha. unfold n_out at 1. simpl. lia.
  - rewrite !n_out_cons. apply (IH i j) in Hl; [lia|done|lia].
Qed.

Lemma n_in_take_lt l i j a :
  l !! i = Some a -> is_output a = false -> (i < j)%nat ->
  (n_in (take i l) < n_in (take j l))%nat.
Proof.
  revert i j. induction l as [|b l IH]; intros i j Hl Ha Hij; [done|].
  destruct j as [|j]; [lia|]. destruct i as [|i]; simpl in *.
  - injection Hl as ->. rewrite n_in_cons, Ha. unfold n_in at 1. simpl. lia.
  - rewrite !n_in_cons. apply (IH i j) in Hl; [lia|done|lia].
Qed.

(** The entry of operand [i] in a filtered list sits at the number of
    selected operands before it. *)
Lemma filter_lookup_count (P : AsmArg -> bool) l i a :
  l !! i = Some a -> P a = true ->
  List.filter P l !! length (List.filter P (take i l)) = Some a.
Proof.
  revert i. induction l as [|b l IH]; intros i Hl Ha; [done|].
  destruct i as [|i]; simpl in *.
  - injection Hl as ->. by rewrite Ha.
  - destruct (P b); simpl; eauto.
Qed.

(** ** The provisional remap table *)

Lemma toIR_args_arg_map rest : forall i l irs l' irs',
  toIR_args rest i l irs = (Normal l', irs') ->
  length (arg_map l) = 10%nat -> (i + length rest <= 10)%nat ->
  0 <= n_outputs l <= Z.of_nat i -> - Z.of_nat i <= input_idx l <= 0 ->
  length (arg_map l') = 10%nat /\
  n_outputs l' = n_outputs l + Z.of_nat (n_out rest) /\
  input_idx l' = input_idx l - Z.of_nat (n_in rest) /\
  (forall j, (j < i)%nat \/ (i + length rest <= j)%nat ->
     arg_map l' !!! j = arg_map l !!! j) /\
  (forall j arg, rest !! j = Some arg ->
     arg_map l' !!! (i + j)%nat =
       if is_output arg then n_outputs l + Z.of_nat (n_out (take j rest))
       else input_idx l - Z.of_nat (n_in (take j rest)) - 1).
Proof.
  induction rest as [|arg rest IH]; intros i l irs l' irs' Hrun Hlen Hi Hno Hii.
  - simpl in Hrun. injection Hrun as <- <-.
    unfold n_out, n_in. simpl. repeat split; try done; lia.
  - simpl in Hrun, Hi.
    destruct (resolve_arg arg (clobbers_mem l) irs) as [[r| |] irs1] eqn:Hr;
      try done.
    apply resolve_arg_is_input in Hr. unfold is_input_arg in Hr.
    set (l1 := record_arg i r l) in *.
    assert (Hl1 : length (arg_map l1) = 10%nat /\
                  n_outputs l1 = n_outputs l + (if is_output arg then 1 else 0) /\
                  input_idx l1 = input_idx l - (if is_output arg then 0 else 1) /\
                  (forall j, j <> i -> arg_map l1 !!! j = arg_map l !!! j) /\
                  arg_map l1 !!! i =
                    if is_output arg then n_outputs l else input_idx l - 1).
    { unfold l1, record_arg. rewrite Hr.
      destruct (is_output arg); simpl.
      - rewrite length_insert, int32_small by lia.
        repeat split; try lia.
        + intros j Hj. by rewrite list_lookup_total_insert_ne.
        + rewrite list_lookup_total_insert_eq by lia. done.
      - rewrite length_insert, int32_small by lia.
        repeat split; try lia.
        + intros j Hj. by rewrite list_lookup_total_insert_ne.
        + rewrite list_lookup_total_insert_eq by lia. done. }
    destruct Hl1 as (Hlen1 & Hno1 & Hii1 & Hother & Hat).
    destruct (IH (S i) l1 irs1 l' irs' Hrun Hlen1) as (H1 & H2 & H3 & H4 & H5).
    { lia. }
    { destruct (is_output arg); lia. }
    { destruct (is_output arg); lia. }
    rewrite n_out_cons, n_in_cons.
    split; [done|]. split; [destruct (is_output arg); lia|].
    split; [destruct (is_output arg); lia|]. split.
    + intros j Hj. simpl in Hj. rewrite H4 by lia. apply Hother. lia.
    + intros [|j] a Ha; simpl in Ha.
      * injection Ha as <-. rewrite Nat.add_0_r, H4 by lia.
        rewrite Hat. unfold n_out, n_in. simpl.
        destruct (is_output arg); lia.
      * replace (i + S j)%nat with (S i + j)%nat by lia.
        rewrite (H5 j a Ha). simpl. rewrite n_out_cons, n_in_cons.
        destruct (is_output a), (is_output arg); lia.
Qed.

(** The operand lists grow by one entry per operand, each on the side its
    path selects, in declaration order. *)
Lemma toIR_args_lists rest : forall i l irs l' irs',
  toIR_args rest i l irs = (Normal l', irs') ->
  exists outs ins,
    outputs l' = outputs l ++ outs /\ inputs l' = inputs l ++ ins /\
    Forall2 resolves_to (List.filter is_output rest) outs /\
    Forall2 resolves_to (List.filter is_input_arg rest) ins.
Proof.
  induction rest as [|arg rest IH]; intros i l irs l' irs' Hrun.
  - simpl in Hrun. injection Hrun as <- <-.
    exists [], []. rewrite !app_nil_r. simpl. auto.
  - simpl in Hrun.
    destruct (resolve_arg arg (clobbers_mem l) irs) as [[r| |] irs1] eqn:Hr;
      try done.
    pose proof (resolve_arg_is_input _ _ _ _ _ Hr) as Hin.
    assert (Hto : resolves_to arg (cns r, arg_val r)).
    { exists (clobbers_mem l), irs, r, irs1. done. }
    destruct (IH _ _ _ _ _ Hrun) as (outs & ins & Ho & Hi & Hfo & Hfi).
    unfold record_arg in Ho, Hi. rewrite Hin in Ho, Hi.
    unfold is_input_arg in *. simpl.
    destruct (is_output arg); simpl in *.
    + exists ((cns r, arg_val r) :: outs), ins.
      unfold cons_ in Ho. rewrite <- app_assoc in Ho. auto.
    + exists outs, ((cns r, arg_val r) :: ins).
      unfold cons_ in Hi. rewrite <- app_assoc in Hi. auto.
Qed.

(** ** The second loop *)

Lemma remap_spec n : forall a k m,
  length m = 10%nat -> (a + n <= 10)%nat -> 0 <= k <= 100 ->
  (forall j, (a <= j < a + n)%nat -> -100 <= m !!! j <= 100) ->
  length (foldl (remap_step k) m (seq a n)) = 10%nat /\
  forall j, foldl (remap_step k) m (seq a n) !!! j =
    if bool_decide (a <= j < a + n)%nat && (m !!! j <? 0)
    then - (m !!! j) - 1 + k else m !!! j.
Proof.
  induction n as [|n IH]; intros a k m Hlen Han Hk Hb.
  - simpl. split; [done|]. intros j.
    rewrite bool_decide_eq_false_2 by lia. done.
  - simpl.
    set (m1 := remap_step k m a).
    assert (Hm1 : length m1 = 10%nat /\
              (forall j, j <> a -> m1 !!! j = m !!! j) /\
              m1 !!! a = if m !!! a <? 0 then - (m !!! a) - 1 + k else m !!! a).
    { unfold m1, remap_step. specialize (Hb a ltac:(lia)).
      destruct (m !!! a <? 0) eqn:Hneg.
      - rewrite length_insert. split; [done|]. split.
        + intros j Hj. by rewrite list_lookup_total_insert_ne.
        + rewrite list_lookup_total_insert_eq by lia.
          rewrite (int32_small (- (m !!! a))) by lia.
          rewrite (int32_small (- (m !!! a) - 1)) by lia.
          by rewrite int32_small by lia.
      - done. }
    destruct Hm1 as (Hlen1 & Hother & Hat).
    destruct (IH (S a) k m1 Hlen1) as [H1 H2]; [lia|lia| |].
    { intros j Hj. rewrite Hother by lia. apply Hb. lia. }
    split; [done|]. intros j. rewrite H2.
    destruct (decide (j = a)) as [->|Hne].
    + rewrite bool_decide_eq_false_2 by lia.
      rewrite bool_decide_eq_true_2 by lia. simpl. apply Hat.
    + rewrite Hother by done.
      destruct (decide (S a <= j < S a + n)%nat).
      * rewrite !bool_decide_eq_true_2 by lia. done.
      * rewrite !bool_decide_eq_false_2 by lia. done.
Qed.

(** After both loops, the slot of every operand holds its canonical
    position. *)
Lemma final_arg_map_canonical code irs m :
  (length (args code) <= 10)%nat ->
  final_arg_map code irs = Some m ->
  forall i arg, args code !! i = Some arg ->
    m !!! i = canonical (args code) i arg.
Proof.
  intros Hn Hm i arg Hi. unfold final_arg_map in Hm.
  destruct (toIR_args _ _ _ _) as [[l| |] irs'] eqn:Hrun; try done.
  injection Hm as <-.
  destruct (toIR_args_arg_map _ _ _ _ _ _ Hrun) as (Hlen & Hno & _ & _ & Hat).
  { reflexivity. }
  { simpl. lia. }
  { simpl. lia. }
  { simpl. lia. }
  simpl in Hno.
  assert (Hprov : forall j a, args code !! j = Some a ->
            arg_map l !!! j =
              if is_output a then Z.of_nat (n_out (take j (args code)))
              else - Z.of_nat (n_in (take j (args code))) - 1).
  { intros j a Ha. specialize (Hat j a Ha). simpl in Hat. rewrite Hat.
    destruct (is_output a); lia. }
  pose proof (n_out_in_length (args code)) as Hsum.
  destruct (remap_spec (length (args code)) 0 (n_outputs l) (arg_map l))
    as [_ Hremap]; [done|simpl; lia|lia| |].
  { intros j Hj.
    destruct (lookup_lt_is_Some_2 (args code) j) as [a Ha]; [lia|].
    rewrite (Hprov j a Ha).
    pose proof (n_out_take_le (args code) j).
    pose proof (n_in_take_le (args code) j).
    destruct (is_output a); lia. }
  unfold remap. rewrite Hremap.
  apply lookup_lt_Some in Hi as Hlt.
  rewrite bool_decide_eq_true_2 by lia. simpl.
  rewrite (Hprov i arg Hi). unfold canonical.
  destruct (is_output arg).
  - destruct (Z.ltb_spec (Z.of_nat (n_out (take i (args code)))) 0); lia.
  - destruct (Z.ltb_spec (- Z.of_nat (n_in (take i (args code))) - 1) 0); lia.
Qed.

Lemma canonical_range l i arg :
  l !! i = Some arg ->
  if is_output arg then 0 <= canonical l i arg < Z.of_nat (n_out l)
  else Z.of_nat (n_out l) <= canonical l i arg < Z.of_nat (length l).
Proof.
  intros Hi. unfold canonical.
  apply lookup_lt_Some in Hi as Hlt.
  pose proof (n_out_in_length l).
  destruct (is_output arg) eqn:Ho.
  - pose proof (n_out_take_lt l i (length l) arg Hi Ho Hlt) as H1.
    rewrite firstn_all in H1. lia.
  - pose proof (n_in_take_lt l i (length l) arg Hi Ho Hlt) as H1.
    rewrite firstn_all in H1. lia.
Qed.

Lemma canonical_mono l i j a b :
  (i < j)%nat -> l !! i = Some a -> l !! j = Some b ->
  is_output a = is_output b -> canonical l i a < canonical l j b.
Proof.
  intros Hij Ha Hb Hab. unfold canonical. rewrite <- Hab.
  destruct (is_output a) eqn:Ho.
  - pose proof (n_out_take_lt l i j a Ha Ho Hij). lia.
  - pose proof (n_in_take_lt l i j a Ha Ho Hij). lia.
Qed.

Lemma canonical_inj l i j a b :
  l !! i = Some a -> l !! j = Some b ->
  canonical l i a = canonical l j b -> i = j.
Proof.
  intros Ha Hb Heq.
  pose proof (canonical_range l i a Ha) as Ra.
  pose proof (canonical_range l j b Hb) as Rb.
  assert (Hab : is_output a = is_output b).
  { destruct (is_output a), (is_output b); try done; lia. }
  destruct (Nat.lt_trichotomy i j) as [Hlt|[->|Hlt]]; [|done|].
  - pose proof (canonical_mono l i j a b Hlt Ha Hb Hab). lia.
  - pose proof (canonical_mono l j i b a Hlt Hb Ha (eq_sym Hab)). lia.
Qed.

(** C1.  For a statement of at most ten operands whose operands all
    resolve, the remap table the template is rewritten with sends operand
    [i] to its canonical position: the outputs (the [Arg_Memory] operands
    of mode [Mode_Output] or [Mode_Update]) onto [0, k), the inputs onto
    [k, n), each group in declaration order; the table is a bijection
    from the operand positions onto [0, n). *)
Theorem arg_map_bijection code irs m :
  (length (args code) <= 10)%nat ->
  final_arg_map code irs = Some m ->
  let n := length (args code) in
  let k := n_out (args code) in
  (forall i arg, args code !! i = Some arg ->
     m !!! i = canonical (args code) i arg) /\
  (forall i arg, args code !! i = Some arg ->
     if is_output arg then 0 <= m !!! i < Z.of_nat k
     else Z.of_nat k <= m !!! i < Z.of_nat n) /\
  (forall i j, (i < n)%nat -> (j < n)%nat -> m !!! i = m !!! j -> i = j) /\
  (forall v, 0 <= v < Z.of_nat n -> exists i, (i < n)%nat /\ m !!! i = v) /\
  (forall i j a b, (i < j)%nat ->
     args code !! i = Some a -> args code !! j = Some b ->
     is_output a = is_output b -> m !!! i < m !!! j).
Proof.
  intros Hn Hm n k.
  pose proof (final_arg_map_canonical code irs m Hn Hm) as Hcan.
  assert (Hrange : forall i arg, args code !! i = Some arg ->
            if is_output arg then 0 <= m !!! i < Z.of_nat k
            else Z.of_nat k <= m !!! i < Z.of_nat n).
  { intros i arg Hi. rewrite (Hcan i arg Hi). by apply canonical_range. }
  assert (Hinj : forall i j, (i < n)%nat -> (j < n)%nat ->
            m !!! i = m !!! j -> i = j).
  { intros i j Hi Hj Heq.
    destruct (lookup_lt_is_Some_2 (args code) i Hi) as [a Ha].
    destruct (lookup_lt_is_Some_2 (args code) j Hj) as [b Hb].
    rewrite (Hcan i a Ha), (Hcan j b Hb) in Heq.
    by eapply canonical_inj. }
  split; [done|]. split; [done|]. split; [done|]. split.
  - intros v Hv.
    set (image := List.map (fun i => m !!! i) (seq 0 n)).
    set (target := List.map Z.of_nat (seq 0 n)).
    assert (Hnd : List.NoDup image).
    { unfold image. apply NoDup_ListNoDup.
      apply (NoDup_fmap_2_strong (fun i => m !!! i)); [|apply NoDup_seq].
      intros i j Hi Hj. apply elem_of_seq in Hi, Hj. apply Hinj; lia. }
    assert (Hincl : incl image target).
    { intros x Hx. apply in_map_iff in Hx as (i & <- & Hi).
      apply in_seq in Hi.
      destruct (lookup_lt_is_Some_2 (args code) i) as [a Ha]; [lia|].
      pose proof (Hrange i a Ha) as Hr.
      pose proof (n_out_in_length (args code)).
      apply in_map_iff. exists (Z.to_nat (m !!! i)).
      split; [destruct (is_output a); lia|].
      apply in_seq. destruct (is_output a); lia. }
    assert (Hback : incl target image).
    { apply NoDup_length_incl; [done| |done].
      unfold image, target. by rewrite !length_map. }
    assert (Hin : In v target).
    { apply in_map_iff. exists (Z.to_nat v). split; [lia|].
      apply in_seq. lia. }
    apply Hback, in_map_iff in Hin as (i & Hi & Hseq).
    apply in_seq in Hseq. exists i. split; [lia|done].
  - intros i j a b Hij Ha Hb Hab.
    rewrite (Hcan i a Ha), (Hcan j b Hb). by apply canonical_mono.
Qed.

(** ** [AsmStatement::toIR] as a whole *)

(** A call that runs to its end has resolved every operand and handed one
    instruction record to [addExp], followed by the label if any. *)
Lemma toIR_Normal_inv this code irs c' irs'' :
  asmcode this = Some code ->
  AsmStatement_toIR this irs = (Normal tt, c', irs'') ->
  exists l irs' m,
    (length (args code) <= 10)%nat /\
    toIR_args (args code) 0 (locals0 code) irs = (Normal l, irs') /\
    final_arg_map code irs = Some m /\
    statementList irs'' =
      statementList irs ++
      mkAsmExpr (rewrite_template m false (insnTemplate code))
                (outputs l) (inputs l)
                (build_clobbers (naked irs) (regs this) (moreRegs code)
                                (clobbers_mem l))
                true false :: label_records code /\
    errors irs'' = errors irs' /\
    c' = Some (mkAsmCode (rewrite_template m false (insnTemplate code))
                 (args code) (moreRegs code) (dollarLabel code)
                 (clobbersMemory code)).
Proof.
  intros Hcode Hrun. unfold AsmStatement_toIR in Hrun. rewrite Hcode in Hrun.
  destruct (10 <? length (args code))%nat eqn:Hlen; [done|].
  apply Nat.ltb_ge in Hlen.
  pose proof (toIR_args_frame (args code) 0 (locals0 code) irs) as [Hs Hn].
  unfold final_arg_map.
  destruct (toIR_args _ _ _ _) as [[l| |] irs'] eqn:Hargs; try done.
  simpl in Hs, Hn. injection Hrun as <- <-.
  exists l, irs', (remap (length (args code)) (n_outputs l) (arg_map l)).
  rewrite Hn. unfold label_records.
  repeat split; try done.
  - destruct (uint32 (dollarLabel code) =? 0); simpl; rewrite Hs.
    + done.
    + by rewrite <- app_assoc.
  - by destruct (uint32 (dollarLabel code) =? 0).
Qed.

(** A call that does not run to its end emits nothing and leaves the
    template alone. *)
Lemma toIR_abandoned this irs :
  (AsmStatement_toIR this irs).1.1 <> Normal tt ->
  statementList (AsmStatement_toIR this irs).2 = statementList irs /\
  (AsmStatement_toIR this irs).1.2 = asmcode this.
Proof.
  unfold AsmStatement_toIR. destruct (asmcode this) as [code|]; [|done].
  destruct (10 <? length (args code))%nat; [done|].
  pose proof (toIR_args_frame (args code) 0 (locals0 code) irs) as [Hs _].
  destruct (toIR_args _ _ _ _) as [[l| |] irs']; simpl in *; done.
Qed.

(** How the call ends, from the operands alone. *)
Lemma toIR_fate this code irs :
  asmcode this = Some code -> (length (args code) <= 10)%nat ->
  match args_fate (args code) with
  | Resolves => (AsmStatement_toIR this irs).1.1 = Normal tt
  | Reports =>
      (AsmStatement_toIR this irs).1.1 = Returned /\
      errors (AsmStatement_toIR this irs).2 =
        errors irs ++ ["argument not frame relative"%string]
  | Asserts =>
      (AsmStatement_toIR this irs).1.1 = AssertFailed /\
      errors (AsmStatement_toIR this irs).2 = errors irs
  end.
Proof.
  intros Hcode Hlen. unfold AsmStatement_toIR. rewrite Hcode.
  apply Nat.ltb_ge in Hlen. rewrite Hlen.
  pose proof (toIR_args_fate (args code) 0 (locals0 code) irs) as Hf.
  destruct (args_fate (args code)).
  - destruct Hf as (l & irs' & -> & _). done.
  - destruct Hf as (irs' & -> & He). done.
  - destruct Hf as (irs' & -> & He). done.
Qed.

(** More than ten operands: the assertion on the count fails before
    anything else is done. *)
Lemma toIR_too_many this code irs :
  asmcode this = Some code -> (10 < length (args code))%nat ->
  AsmStatement_toIR this irs = (AssertFailed, Some code, irs).
Proof.
  intros Hcode Hlen. unfold AsmStatement_toIR. rewrite Hcode.
  apply Nat.ltb_lt in Hlen. by rewrite Hlen.
Qed.

(** ** The clobber list *)

(** C5.  Inside a naked function every record the call hands to the
    emitter has an empty clobber list, whatever the register mask, the
    word of further registers and the memory-clobber flag are, and
    whatever the operands force. *)
Theorem naked_no_clobbers this irs :
  naked irs = true ->
  exists new,
    statementList (AsmStatement_toIR this irs).2 = statementList irs ++ new /\
    Forall (fun t => asm_clobbers t = []) new.
Proof.
  intros Hnaked.
  destruct (AsmStatement_toIR this irs) as [[o c'] irs''] eqn:Hrun.
  destruct o as [[]| |].
  - destruct (asmcode this) as [code|] eqn:Hcode.
    + destruct (toIR_Normal_inv _ _ _ _ _ Hcode Hrun)
        as (l & irs' & m & _ & _ & _ & Hs & _).
      eexists. split; [exact Hs|].
      rewrite Hnaked. constructor; [done|].
      unfold label_records. by case_match; repeat constructor.
    + unfold AsmStatement_toIR in Hrun. rewrite Hcode in Hrun.
      injection Hrun as _ <-. exists []. by rewrite app_nil_r.
  - exists []. rewrite app_nil_r. split; [|done].
    pose proof (toIR_abandoned this irs) as Hab. rewrite Hrun in Hab.
    by apply Hab.
  - exists []. rewrite app_nil_r. split; [|done].
    pose proof (toIR_abandoned this irs) as Hab. rewrite Hrun in Hab.
    by apply Hab.
Qed.

(** ** The operand lists *)

Lemma filter_Forall2_cns (P : AsmArg -> bool) l es (Q : string * tree -> Prop) :
  (forall a e, P a = true -> resolves_to a e -> Q e) ->
  Forall2 resolves_to (List.filter P l) es -> Forall Q es.
Proof.
  intros HQ H. apply Forall_lookup. intros i e He.
  destruct (Forall2_lookup_r _ _ _ _ _ H He) as (a & Ha & Hae).
  apply list_elem_of_lookup_2, list_elem_of_In, filter_In in Ha as [_ HP].
  eauto.
Qed.

(** C6.  In the record of a lowered statement the output list holds, in
    declaration order, exactly the entries of the [Arg_Memory] operands of
    mode [Mode_Output] or [Mode_Update], and the input list exactly the
    entries of all other operands.  So a [Arg_Memory] operand of mode
    [Mode_Output] sits in the output list with constraint "=m", one of mode
    [Mode_Update] sits there with "+m", neither has an entry in the input
    list, and one of mode [Mode_Input] sits in the input list with "m". *)
Theorem memory_operand_lists this code irs c' irs' :
  asmcode this = Some code ->
  AsmStatement_toIR this irs = (Normal tt, c', irs') ->
  exists t rest,
    statementList irs' = statementList irs ++ t :: rest /\
    Forall2 resolves_to (List.filter is_output (args code)) (asm_outputs t) /\
    Forall2 resolves_to (List.filter is_input_arg (args code)) (asm_inputs t) /\
    Forall (fun e => e.1 = "=m"%string \/ e.1 = "+m"%string) (asm_outputs t) /\
    Forall (fun e => e.1 = "i"%string \/ e.1 = "p"%string \/ e.1 = "m"%string)
           (asm_inputs t) /\
    forall i arg, args code !! i = Some arg -> type arg = Arg_Memory ->
      match mode arg with
      | Mode_Output =>
          is_output arg = true /\
          exists v, asm_outputs t !! n_out (take i (args code))
                      = Some ("=m"%string, v) /\ memory_value (expr arg) v
      | Mode_Update =>
          is_output arg = true /\
          exists v, asm_outputs t !! n_out (take i (args code))
                      = Some ("+m"%string, v) /\ memory_value (expr arg) v
      | Mode_Input =>
          is_output arg = false /\
          exists v, asm_inputs t !! n_in (take i (args code))
                      = Some ("m"%string, v) /\ memory_value (expr arg) v
      end.
Proof.
  intros Hcode Hrun.
  destruct (toIR_Normal_inv _ _ _ _ _ Hcode Hrun)
    as (l & irs1 & m & _ & Hargs & _ & Hs & _).
  destruct (toIR_args_lists _ _ _ _ _ _ Hargs) as (outs & ins & Ho & Hi & Hfo & Hfi).
  simpl in Ho, Hi. subst outs ins.
  eexists _, _. split; [exact Hs|]. simpl.
  split; [done|]. split; [done|]. split; [|split].
  - eapply filter_Forall2_cns; [|exact Hfo].
    intros a e Ha Hr. apply resolves_to_cns in Hr. by rewrite Ha in Hr.
  - eapply filter_Forall2_cns; [|exact Hfi].
    intros a e Ha Hr. apply resolves_to_cns in Hr.
    unfold is_input_arg in Ha. apply negb_true_iff in Ha. by rewrite Ha in Hr.
  - intros i arg Harg Hty.
    assert (Hout : is_output arg =
                   match mode arg with Mode_Input => false | _ => true end).
    { unfold is_output. rewrite Hty. by destruct (mode arg). }
    assert (Hentry : forall (P : AsmArg -> bool) es,
              P arg = true -> Forall2 resolves_to (List.filter P (args code)) es ->
              exists v, es !! length (List.filter P (take i (args code)))
                        = Some (match mode arg with
                                | Mode_Input => "m"%string
                                | Mode_Output => "=m"%string
                                | Mode_Update => "+m"%string
                                end, v) /\ memory_value (expr arg) v).
    { intros P es HP HF.
      pose proof (filter_lookup_count P _ _ _ Harg HP) as Hl.
      destruct (Forall2_lookup_l _ _ _ _ _ HF Hl) as ([c v] & He & Hr).
      destruct (resolves_to_Memory _ _ Hty Hr) as [Hv Hc]. simpl in Hv, Hc.
      exists v. by rewrite He, Hc. }
    destruct (mode arg); (split; [done|]).
    + apply (Hentry is_input_arg); [|done].
      unfold is_input_arg. by rewrite Hout.
    + by apply (Hentry is_output).
    + by apply (Hentry is_output).
Qed.

(** ** Operands that do not resolve *)

Lemma toIR_not_Normal this code irs :
  asmcode this = Some code -> args_fate (args code) <> Resolves ->
  (AsmStatement_toIR this irs).1.1 <> Normal tt.
Proof.
  intros Hcode Hf.
  destruct (decide (length (args code) <= 10)%nat) as [Hlen|Hlen].
  - pose proof (toIR_fate this code irs Hcode Hlen) as H.
    destruct (args_fate (args code)); [done| |]; destruct H as [-> _]; done.
  - rewrite (toIR_too_many this code irs Hcode) by lia. done.
Qed.

(** C7.  When the frame layout has no offset for the variable of a
    [Arg_FrameRelative] operand, the statement is abandoned: nothing
    reaches the emitter (so the operand is in no operand list handed on)
    and the template stays as it was.  Unless an assertion stops the
    compiler first (more than ten operands, or an earlier operand of a kind
    or shape lowering asserts against), the call reports "argument not
    frame relative" and returns. *)
Theorem frame_relative_unresolved this code irs i var md :
  asmcode this = Some code ->
  args code !! i = Some (mkAsmArg Arg_FrameRelative (VarExp var) md) ->
  getFrameRelativeValue (Stree var) = None ->
  (AsmStatement_toIR this irs).1.1 <> Normal tt /\
  statementList (AsmStatement_toIR this irs).2 = statementList irs /\
  (AsmStatement_toIR this irs).1.2 = Some code /\
  ((length (args code) <= 10)%nat ->
   Forall (fun a => arg_fate a <> Asserts) (take i (args code)) ->
   (AsmStatement_toIR this irs).1.1 = Returned /\
   errors (AsmStatement_toIR this irs).2 =
     errors irs ++ ["argument not frame relative"%string]).
Proof.
  intros Hcode Hi Hframe.
  assert (Hfate : arg_fate (mkAsmArg Arg_FrameRelative (VarExp var) md) = Reports).
  { unfold arg_fate. simpl. by rewrite Hframe. }
  assert (Hnot : (AsmStatement_toIR this irs).1.1 <> Normal tt).
  { apply (toIR_not_Normal this code irs Hcode).
    eapply args_fate_lookup; [exact Hi|]. by rewrite Hfate. }
  split; [done|].
  destruct (toIR_abandoned this irs Hnot) as [Hs Hc].
  split; [done|]. split; [by rewrite Hc|].
  intros Hlen Hpre.
  pose proof (toIR_fate this code irs Hcode Hlen) as H.
  by rewrite (args_fate_Reports _ _ _ Hi Hfate Hpre) in H.
Qed.

(** C10.  The [switch] has no case for [Arg_Dollar]: such an operand takes
    the default branch, whose assertion fails, leaving the state as it
    was.  A statement holding one is never lowered, and when the operands
    before it resolve the call ends in that assertion failure with no
    error reported. *)
Theorem dollar_operand_asserts this code irs i e md :
  asmcode this = Some code ->
  args code !! i = Some (mkAsmArg Arg_Dollar e md) ->
  (forall cm irs0,
     resolve_arg (mkAsmArg Arg_Dollar e md) cm irs0 = (AssertFailed, irs0)) /\
  (AsmStatement_toIR this irs).1.1 <> Normal tt /\
  statementList (AsmStatement_toIR this irs).2 = statementList irs /\
  (AsmStatement_toIR this irs).1.2 = Some code /\
  (Forall (fun a => arg_fate a = Resolves) (take i (args code)) ->
   (AsmStatement_toIR this irs).1.1 = AssertFailed /\
   errors (AsmStatement_toIR this irs).2 = errors irs).
Proof.
  intros Hcode Hi.
  assert (Hfate : arg_fate (mkAsmArg Arg_Dollar e md) = Asserts) by done.
  assert (Hnot : (AsmStatement_toIR this irs).1.1 <> Normal tt).
  { apply (toIR_not_Normal this code irs Hcode).
    eapply args_fate_lookup; [exact Hi|]. by rewrite Hfate. }
  split; [done|]. split; [done|].
  destruct (toIR_abandoned this irs Hnot) as [Hs Hc].
  split; [done|]. split; [by rewrite Hc|].
  intros Hpre.
  destruct (decide (length (args code) <= 10)%nat) as [Hlen|Hlen].
  - pose proof (toIR_fate this code irs Hcode Hlen) as H.
    by rewrite (args_fate_Asserts _ _ _ Hi Hfate Hpre) in H.
  - rewrite (toIR_too_many this code irs Hcode) by lia. done.
Qed.

(** ** Template digits and the operand count *)

Lemma toIR_args_errors rest i l irs l' irs' :
  toIR_args rest i l irs = (Normal l', irs') -> errors irs' = errors irs.
Proof.
  intros Hrun. pose proof (toIR_args_fate rest i l irs) as H.
  destruct (args_fate rest).
  - destruct H as (l1 & irs1 & H & He). rewrite Hrun in H. by injection H as _ <-.
  - destruct H as (irs1 & H & _). by rewrite Hrun in H.
  - destruct H as (irs1 & H & _). by rewrite Hrun in H.
Qed.

(** No loop writes the slots past the operand count: they still hold what
    the stack held on entry. *)
Lemma final_arg_map_unset code irs m j :
  (length (args code) <= 10)%nat ->
  final_arg_map code irs = Some m ->
  (length (args code) <= j < 10)%nat ->
  m !!! j = stack_garbage j.
Proof.
  intros Hn Hm Hj. unfold final_arg_map in Hm.
  destruct (toIR_args _ _ _ _) as [[l| |] irs'] eqn:Hrun; try done.
  injection Hm as <-.
  destruct (toIR_args_arg_map _ _ _ _ _ _ Hrun) as (Hlen & Hno & _ & Hkeep & Hat);
    [reflexivity|simpl; lia|simpl; lia|simpl; lia|].
  simpl in Hno.
  pose proof (n_out_in_length (args code)) as Hsum.
  destruct (remap_spec (length (args code)) 0 (n_outputs l) (arg_map l))
    as [_ Hremap]; [done|simpl; lia|lia| |].
  { intros a Ha.
    destruct (lookup_lt_is_Some_2 (args code) a) as [x Hx]; [lia|].
    specialize (Hat a x Hx). simpl in Hat. rewrite Hat.
    pose proof (n_out_take_le (args code) a).
    pose proof (n_in_take_le (args code) a).
    destruct (is_output x); lia. }
  unfold remap. rewrite Hremap.
  rewrite bool_decide_eq_false_2 by lia. simpl.
  rewrite Hkeep by (right; lia).
  change (arg_map (locals0 code)) with (stack_garbage <$> seq 0 10).
  rewrite (list_lookup_total_fmap stack_garbage (seq 0 10) j)
    by (rewrite length_seq; lia).
  by rewrite lookup_total_seq_lt by lia.
Qed.

(** The rewriting loop does not compare a template digit with the operand
    count.  When a lowered statement's template holds an unescaped percent
    sign followed by a digit that is not below the operand count, no error
    is reported and the record is emitted; the digit has indexed the remap
    table, and the byte written in its place is the character zero plus
    whatever the unset slot held on entry, cut to eight bits. *)
Lemma template_digit_unchecked this code irs c' irs' pre d post :
  asmcode this = Some code ->
  AsmStatement_toIR this irs = (Normal tt, c', irs') ->
  insnTemplate code = pre +:+ String "%" (String d post) ->
  scan false pre = false -> is_digit d = true ->
  (length (args code) <= digit_slot d)%nat ->
  errors irs' = errors irs /\
  exists m t rest,
    final_arg_map code irs = Some m /\
    m !!! digit_slot d = stack_garbage (digit_slot d) /\
    statementList irs' = statementList irs ++ t :: rest /\
    asm_string t =
      rewrite_template m false pre +:+
      String "%" (String (char_of_int (int_of_char "0" +
                                       stack_garbage (digit_slot d)))
                         (rewrite_template m false post)).
Proof.
  intros Hcode Hrun Htmpl Hpre Hd Hn.
  destruct (toIR_Normal_inv _ _ _ _ _ Hcode Hrun)
    as (l & irs1 & m & Hlen & Hargs & Hm & Hs & He & _).
  split; [rewrite He; by eapply toIR_args_errors|].
  pose proof (is_digit_slot d Hd) as Hslot.
  pose proof (final_arg_map_unset code irs m (digit_slot d) Hlen Hm
                ltac:(lia)) as Hunset.
  eexists m, _, _. split; [done|]. split; [done|]. split; [exact Hs|].
  simpl. rewrite Htmpl, rewrite_template_app, Hpre.
  cbn [rewrite_template]. change (is_pct "%") with true. cbv iota.
  by rewrite Hd, Hunset.
Qed.

(** C2, as amended.  A statement of more than ten operands does not get
    past the assertion on the operand count, a fatal failure of the
    compiler and not an error reported against the statement: the call ends
    there, before any operand is resolved or any slot of the remap table
    is read or written, with nothing handed to the emitter, no error added
    and the template as it was. *)
Theorem too_many_operands_assert this code irs :
  asmcode this = Some code -> (10 < length (args code))%nat ->
  AsmStatement_toIR this irs = (AssertFailed, Some code, irs) /\
  (AsmStatement_toIR this irs).1.1 <> Returned /\
  errors (AsmStatement_toIR this irs).2 = errors irs /\
  statementList (AsmStatement_toIR this irs).2 = statementList irs.
Proof.
  intros Hcode Hlen.
  assert (Hrun : AsmStatement_toIR this irs = (AssertFailed, Some code, irs)).
  { unfold AsmStatement_toIR. rewrite Hcode.
    destruct (Nat.ltb_spec 10 (length (args code))) as [_|Hle]; [done|lia]. }
  rewrite Hrun. simpl. repeat split; done.
Qed.

(** ** The clobber loops *)

Lemma foldl_cons_if (test : nat -> bool) (f : nat -> string) l : forall acc,
  foldl (fun cl i => if test i then cl else cons_ cl (f i)) acc l =
  acc ++ List.map f (List.filter (fun i => negb (test i)) l).
Proof.
  induction l as [|i l IH]; intros acc; simpl.
  - by rewrite app_nil_r.
  - rewrite IH. destruct (test i); simpl; [done|].
    unfold cons_. by rewrite <- app_assoc.
Qed.

(** Outside a naked function the clobber list is the registers the first
    loop selects, then those the second loop selects, then "memory" if the
    flag is set. *)
Lemma build_clobbers_unfold regs_ more cm :
  build_clobbers false regs_ more cm =
  List.map regInfo
    (List.filter (fun i => negb (and_u regs_ (shl1 (Z.of_nat i)) =? 0))
                 (seq 0 32)) ++
  List.map regInfo
    (List.filter (fun i => negb (and_u more (shl1 (Z.of_nat i - 32)) =? 0))
                 (seq 0 32)) ++
  (if cm then [memory_name] else []).
Proof.
  unfold build_clobbers. change (negb false) with true. cbv iota zeta.
  change (regs_step regs_) with
    (fun cl i => if and_u regs_ (shl1 (Z.of_nat i)) =? 0 then cl
                 else cons_ cl (regInfo i)).
  change (moreRegs_step more) with
    (fun cl i => if and_u more (shl1 (Z.of_nat i - 32)) =? 0 then cl
                 else cons_ cl (regInfo i)).
  rewrite !foldl_cons_if, app_nil_l.
  destruct cm; unfold cons_; by rewrite <- ?app_assoc, ?app_nil_r.
Qed.

(** Every shift count of the second loop lies outside [0, 32). *)
Lemma moreRegs_shift_out_of_range :
  Forall (fun i => shl1 (Z.of_nat i - 32) = shl_out_of_range (Z.of_nat i - 32))
         (seq 0 32).
Proof.
  apply Forall_forall. intros i Hi. apply elem_of_seq in Hi.
  unfold shl1. destruct (Z.leb_spec 0 (Z.of_nat i - 32)); [lia|done].
Qed.

(** ** [ExtAsmStatement::semantic] *)

Lemma semantic_args_loop n args_ cons errs k :
  length cons = length args_ -> (k <= length args_)%nat ->
  foldl (semantic_args_step n) (Some (args_, cons, errs)) (seq 0 k) =
  Some (imap (fun i e => (semantic_operand n i e).1) (take k args_)
          ++ drop k args_,
        List.map (fun c => (semantic_string constraint_msg c).1) (take k cons)
          ++ drop k cons,
        errs ++ concat (imap (operand_errors n)
                             (zip (take k args_) (take k cons)))).
Proof.
  intros Hlen. induction k as [|k IH]; intros Hk.
  - simpl. by rewrite !drop_0, app_nil_r.
  - rewrite seq_S, foldl_app, IH by lia. simpl.
    destruct (lookup_lt_is_Some_2 args_ k ltac:(lia)) as [e He].
    destruct (lookup_lt_is_Some_2 cons k ltac:(lia)) as [c Hc].
    assert (Hlk : length (imap (fun i e => (semantic_operand n i e).1)
                               (take k args_)) = k).
    { rewrite length_imap, length_take. lia. }
    assert (Hlc : length (List.map (fun c => (semantic_string constraint_msg c).1)
                                   (take k cons)) = k).
    { rewrite length_map, length_take. lia. }
    assert (HA : (imap (fun i e => (semantic_operand n i e).1) (take k args_)
                    ++ drop k args_) !! k = Some e).
    { rewrite lookup_app_r; rewrite Hlk; [|lia].
      by rewrite Nat.sub_diag, lookup_drop, Nat.add_0_r. }
    assert (HC : (List.map (fun c => (semantic_string constraint_msg c).1)
                           (take k cons) ++ drop k cons) !! k = Some c).
    { rewrite lookup_app_r; rewrite Hlc; [|lia].
      by rewrite Nat.sub_diag, lookup_drop, Nat.add_0_r. }
    rewrite HA. simpl. rewrite HC. simpl.
    destruct (semantic_operand n k e) as [e' errs1] eqn:Hop.
    fold constraint_msg.
    destruct (semantic_string constraint_msg c) as [c' errs2] eqn:Hcs.
    rewrite (take_S_r _ _ _ He), (take_S_r _ _ _ Hc).
    rewrite (drop_S _ _ _ He), (drop_S _ _ _ Hc).
    rewrite (insert_app_r_alt (imap _ _)); rewrite Hlk; [|lia].
    rewrite (insert_app_r_alt (List.map _ _)); rewrite Hlc; [|lia].
    rewrite Nat.sub_diag. simpl.
    rewrite zip_with_app by (rewrite !length_take; lia).
    rewrite !imap_app, map_app, concat_app. simpl.
    rewrite length_take, Nat.min_l by lia.
    rewrite length_zip_with, !length_take, Hlen.
    rewrite !Nat.min_l by lia. rewrite Nat.add_0_r.
    unfold operand_errors. simpl. rewrite Hop, Hcs. simpl.
    by rewrite app_nil_r, <- !app_assoc.
Qed.

Lemma semantic_clobbers_loop cl errs k :
  (k <= length cl)%nat ->
  foldl semantic_clobbers_step (cl, errs) (seq 0 k) =
  (List.map (fun e => (semantic_string clobber_msg e).1) (take k cl) ++ drop k cl,
   errs ++ concat (List.map (fun e => (semantic_string clobber_msg e).2)
                            (take k cl))).
Proof.
  induction k as [|k IH]; intros Hk.
  - simpl. by rewrite drop_0, app_nil_r.
  - rewrite seq_S, foldl_app, IH by lia. simpl.
    destruct (lookup_lt_is_Some_2 cl k ltac:(lia)) as [e He].
    assert (Hlk : length (List.map (fun e => (semantic_string clobber_msg e).1)
                                   (take k cl)) = k).
    { rewrite length_map, length_take. lia. }
    rewrite lookup_app_r by lia. rewrite Hlk, Nat.sub_diag, lookup_drop.
    rewrite Nat.add_0_r, He.
    fold clobber_msg.
    destruct (semantic_string clobber_msg e) as [e' errs1] eqn:Hcs.
    rewrite (take_S_r _ _ _ He), (drop_S _ _ _ He).
    rewrite insert_app_r_alt by lia. rewrite Hlk, Nat.sub_diag. simpl.
    rewrite !map_app, concat_app. simpl. rewrite Hcs. simpl.
    rewrite app_nil_r, <- !app_assoc. done.
Qed.

Lemma semantic_string_reports msg e :
  not_char_string (semantic_string msg e).1 = true ->
  In msg (semantic_string msg e).2.
Proof.
  unfold semantic_string.
  destruct (Esemantic e) as [e1 errs1].
  destruct (Eoptimize WANTvalue e1) as [e2 errs2]. simpl.
  intros ->. rewrite !in_app_iff. right. right. by left.
Qed.

(** C9.  Checking never stops at an error.  Whatever the template, the
    operands, the constraints and the clobbers are, every operand and its
    constraint and every clobber is visited and replaced by its checked
    form, and the errors reported are those of the template, then those
    of each operand and constraint in turn, then those of each clobber:
    none is dropped because of an earlier one.  In particular each
    constraint and each clobber that is not a constant char string has its
    message among them. *)
Theorem semantic_no_early_abort this :
  (forall a, Ext.args this = Some a ->
     length (Ext.argConstraints this) = length a) ->
  exists this' errs,
    ExtAsmStatement_semantic this = Some (this', errs) /\
    Ext.args this' =
      imap (fun i e => (semantic_operand (Ext.nOutputArgs this) i e).1)
        <$> Ext.args this /\
    Ext.argConstraints this' =
      match Ext.args this with
      | Some _ => List.map (fun c => (semantic_string constraint_msg c).1)
                           (Ext.argConstraints this)
      | None => Ext.argConstraints this
      end /\
    Ext.clobbers this' =
      List.map (fun e => (semantic_string clobber_msg e).1)
        <$> Ext.clobbers this /\
    errs =
      (semantic_string template_msg (Ext.insnTemplate this)).2 ++
      concat (imap (operand_errors (Ext.nOutputArgs this))
                   (zip (default [] (Ext.args this))
                        (Ext.argConstraints this))) ++
      concat (List.map (fun e => (semantic_string clobber_msg e).2)
                       (default [] (Ext.clobbers this))) /\
    (not_char_string (semantic_string template_msg (Ext.insnTemplate this)).1
       = true -> In template_msg errs) /\
    (forall a i c, Ext.args this = Some a ->
       Ext.argConstraints this !! i = Some c ->
       not_char_string (semantic_string constraint_msg c).1 = true ->
       In constraint_msg errs) /\
    (forall cl i e, Ext.clobbers this = Some cl -> cl !! i = Some e ->
       not_char_string (semantic_string clobber_msg e).1 = true ->
       In clobber_msg errs).
Proof.
  intros Hlen.
  set (n := Ext.nOutputArgs this).
  set (errs0 := (semantic_string template_msg (Ext.insnTemplate this)).2).
  set (errsA := concat (imap (operand_errors n)
                  (zip (default [] (Ext.args this)) (Ext.argConstraints this)))).
  set (errsC := concat (List.map (fun e => (semantic_string clobber_msg e).2)
                  (default [] (Ext.clobbers this)))).
  assert (Hrun : exists this',
    ExtAsmStatement_semantic this = Some (this', errs0 ++ errsA ++ errsC) /\
    Ext.args this' =
      imap (fun i e => (semantic_operand n i e).1) <$> Ext.args this /\
    Ext.argConstraints this' =
      match Ext.args this with
      | Some _ => List.map (fun c => (semantic_string constraint_msg c).1)
                           (Ext.argConstraints this)
      | None => Ext.argConstraints this
      end /\
    Ext.clobbers this' =
      List.map (fun e => (semantic_string clobber_msg e).1)
        <$> Ext.clobbers this).
  { unfold ExtAsmStatement_semantic, errs0, errsA, errsC, n.
    fold template_msg.
    destruct (semantic_string template_msg (Ext.insnTemplate this))
      as [insnt e0].
    destruct (Ext.args this) as [a|] eqn:Ha.
    - specialize (Hlen a eq_refl).
      rewrite (semantic_args_loop _ a (Ext.argConstraints this) e0 (length a))
        by (done || lia).
      rewrite (firstn_all a), (drop_all a), <- Hlen.
      rewrite firstn_all, drop_all, !app_nil_r. simpl.
      destruct (Ext.clobbers this) as [cl|] eqn:Hcl.
      + rewrite (semantic_clobbers_loop cl _ (length cl)) by lia.
        rewrite firstn_all, drop_all, app_nil_r. simpl.
        eexists. rewrite <- !app_assoc. split; [done|]. done.
      + simpl. eexists. rewrite app_nil_r. split; [done|]. done.
    - simpl.
      destruct (Ext.clobbers this) as [cl|] eqn:Hcl.
      + rewrite (semantic_clobbers_loop cl _ (length cl)) by lia.
        rewrite firstn_all, drop_all, app_nil_r. simpl.
        eexists. split; [done|]. done.
      + simpl. eexists. rewrite app_nil_r. split; [done|]. done. }
  destruct Hrun as (this' & Hrun & Ha & Hc & Hcl).
  exists this', (errs0 ++ errsA ++ errsC).
  split; [done|]. split; [done|]. split; [done|]. split; [done|].
  split; [done|]. split; [|split].
  - intros Hbad. apply in_app_iff. left. by apply semantic_string_reports.
  - intros a i c Hargs Hi Hbad.
    apply in_app_iff. right. apply in_app_iff. left.
    specialize (Hlen a Hargs).
    destruct (lookup_lt_is_Some_2 a i) as [e He].
    { rewrite <- Hlen. by eapply lookup_lt_Some. }
    unfold errsA. rewrite Hargs. simpl.
    apply in_concat. exists (operand_errors n i (e, c)). split.
    + apply list_elem_of_In, list_elem_of_lookup. exists i.
      rewrite list_lookup_imap.
      apply fmap_Some. exists (e, c). split; [|done].
      apply lookup_zip_with_Some. eauto.
    + unfold operand_errors. apply in_app_iff. right. simpl.
      by apply semantic_string_reports.
  - intros cl i e Hcls Hi Hbad.
    apply in_app_iff. right. apply in_app_iff. right.
    unfold errsC. rewrite Hcls. simpl.
    apply in_concat. exists (semantic_string clobber_msg e).2. split.
    + apply in_map_iff. exists e. split; [done|].
      by apply list_elem_of_In, list_elem_of_lookup_2 with i.
    + by apply semantic_string_reports.
Qed.

(** * Further properties of [AsmStatement::toIR] *)

(** ** What a call leaves behind *)

Lemma toIR_Normal_state this code irs c' irs'' :
  asmcode this = Some code ->
  AsmStatement_toIR this irs = (Normal tt, c', irs'') ->
  exists l irs',
    toIR_args (args code) 0 (locals0 code) irs = (Normal l, irs') /\
    addressable irs'' = addressable irs' /\
    rodc irs'' = rodc irs' /\ uniqueName irs'' = uniqueName irs'.
Proof.
  intros Hcode Hrun. unfold AsmStatement_toIR in Hrun. rewrite Hcode in Hrun.
  destruct (10 <? length (args code))%nat; [done|].
  destruct (toIR_args _ _ _ _) as [[l| |] irs'] eqn:Hargs; try done.
  injection Hrun as _ <-. exists l, irs'. split; [done|].
  by destruct (uint32 (dollarLabel code) =? 0).
Qed.

(** X1.  Whatever the statement and the state, a call adds at most two records
    to the statement list, all of them volatile, and only when it runs to
    its end; it reports at most one error, "argument not frame relative",
    and only when it returns early; a failed assertion leaves both as they
    were. *)
Theorem toIR_effects this irs :
  match (AsmStatement_toIR this irs).1.1 with
  | Normal _ =>
      errors (AsmStatement_toIR this irs).2 = errors irs /\
      exists new,
        statementList (AsmStatement_toIR this irs).2 = statementList irs ++ new /\
        (length new <= 2)%nat /\
        Forall (fun t => asm_volatile t = true) new
  | Returned =>
      statementList (AsmStatement_toIR this irs).2 = statementList irs /\
      errors (AsmStatement_toIR this irs).2 =
        errors irs ++ ["argument not frame relative"%string]
  | AssertFailed =>
      statementList (AsmStatement_toIR this irs).2 = statementList irs /\
      errors (AsmStatement_toIR this irs).2 = errors irs
  end.
Proof.
  destruct (asmcode this) as [code|] eqn:Hcode.
  - destruct (decide (length (args code) <= 10)%nat) as [Hlen|Hlen].
    + pose proof (toIR_fate this code irs Hcode Hlen) as Hf.
      destruct (args_fate (args code)).
      * destruct (AsmStatement_toIR this irs) as [[o c'] irs''] eqn:Hrun.
        simpl in Hf. subst o. simpl.
        destruct (toIR_Normal_inv _ _ _ _ _ Hcode Hrun)
          as (l & irs' & m & _ & Hargs & _ & Hs & He & _).
        split; [rewrite He; by eapply toIR_args_errors|].
        eexists. split; [exact Hs|]. unfold label_records.
        destruct (uint32 (dollarLabel code) =? 0); simpl;
          (split; [lia|]); repeat constructor; done.
      * destruct Hf as [Ho He]. rewrite Ho. split; [|done].
        apply toIR_abandoned. by rewrite Ho.
      * destruct Hf as [Ho He]. rewrite Ho. split; [|done].
        apply toIR_abandoned. by rewrite Ho.
    + rewrite (toIR_too_many this code irs Hcode) by lia. done.
  - unfold AsmStatement_toIR. rewrite Hcode. simpl.
    split; [done|]. exists []. rewrite app_nil_r.
    split; [done|]. split; [simpl; lia|done].
Qed.

(** ** The memory clobber *)

Lemma resolve_arg_clobbers_mem arg cm irs r irs' :
  resolve_arg arg cm irs = (Normal r, irs') ->
  clobbers_mem_after r = cm || forces_memory arg.
Proof.
  destruct arg as [t e md]. unfold resolve_arg, forces_memory. simpl.
  destruct t; simpl.
  - intros [= <- _]. simpl. by rewrite orb_false_r.
  - destruct e; try done; intros [= <- _]; simpl; by rewrite orb_false_r.
  - unfold resolve_Memory. simpl.
    destruct (match e with VarExp _ => _ | _ => _ end) as [v irs1].
    destruct md; intros [= <- _]; simpl; by rewrite orb_false_r.
  - destruct e; try done. destruct (getFrameRelativeValue _); try done.
    intros [= <- _]. simpl.
    destruct md; simpl; by rewrite ?orb_false_r, ?orb_true_r.
  - intros [= <- _]. simpl. by rewrite orb_false_r.
  - done.
Qed.

Lemma toIR_args_clobbers_mem rest : forall i l irs l' irs',
  toIR_args rest i l irs = (Normal l', irs') ->
  clobbers_mem l' = clobbers_mem l || existsb forces_memory rest.
Proof.
  induction rest as [|arg rest IH]; intros i l irs l' irs' Hrun; simpl in *.
  - injection Hrun as <- _. by rewrite orb_false_r.
  - destruct (resolve_arg arg (clobbers_mem l) irs) as [[r| |] irs1] eqn:Hr;
      try done.
    apply IH in Hrun. rewrite Hrun.
    apply resolve_arg_clobbers_mem in Hr.
    assert (Hcm : clobbers_mem (record_arg i r l) = clobbers_mem_after r).
    { unfold record_arg. by destruct (is_input r). }
    rewrite Hcm, Hr. by rewrite orb_assoc.
Qed.

(** X3.  In the record of a lowered statement the clobber list is built with the
    memory flag set exactly when the statement's own flag is set or some
    frame-relative operand is not a pure input.  Outside a naked function
    it is therefore the selected registers followed by "memory" in that
    case, and the selected registers alone otherwise. *)
Theorem memory_clobber_flag this code irs c' irs' :
  asmcode this = Some code ->
  AsmStatement_toIR this irs = (Normal tt, c', irs') ->
  let flag := negb (clobbersMemory code =? 0)
              || existsb forces_memory (args code) in
  exists t rest,
    statementList irs' = statementList irs ++ t :: rest /\
    asm_clobbers t =
      build_clobbers (naked irs) (regs this) (moreRegs code) flag /\
    (naked irs = false ->
     asm_clobbers t =
       build_clobbers false (regs this) (moreRegs code) false ++
       (if flag then [memory_name] else [])).
Proof.
  intros Hcode Hrun flag.
  destruct (toIR_Normal_inv _ _ _ _ _ Hcode Hrun)
    as (l & irs1 & m & _ & Hargs & _ & Hs & _).
  apply toIR_args_clobbers_mem in Hargs. simpl in Hargs.
  eexists _, _. split; [exact Hs|]. simpl. rewrite Hargs. fold flag.
  split; [done|]. intros ->.
  rewrite !build_clobbers_unfold, app_nil_r. by rewrite <- app_assoc.
Qed.

(** ** Operands that are not memory operands *)



(** ** Declarations marked addressable *)

Lemma resolve_arg_addressable arg cm irs r irs' :
  resolve_arg arg cm irs = (Normal r, irs') ->
  (exists ext, addressable irs' = addressable irs ++ ext) /\
  (forall var md, arg = mkAsmArg Arg_Memory (VarExp var) md ->
     In (Stree var) (addressable irs')).
Proof.
  destruct arg as [t e md]. unfold resolve_arg. simpl.
  assert (Hnil : exists ext, addressable irs = addressable irs ++ ext).
  { exists []. by rewrite app_nil_r. }
  destruct t; simpl.
  - intros [= _ <-]. split; [done|]. intros ?? [=].
  - destruct e; try done; intros [= _ <-]; (split; [done|]); intros ?? [=].
  - unfold resolve_Memory. simpl. intros Hr. split.
    + destruct e, md; simpl in Hr; injection Hr as _ <-; simpl;
        repeat case_match; simpl; eauto.
    + intros var md' [= -> ->]. simpl in Hr.
      destruct md'; injection Hr as _ <-; simpl;
        apply in_app_iff; right; by left.
  - destruct e; try done. destruct (getFrameRelativeValue _); try done.
    intros [= _ <-]. split; [done|]. intros ?? [=].
  - intros [= _ <-]. split; [done|]. intros ?? [=].
  - done.
Qed.

Lemma toIR_args_addressable rest : forall i l irs l' irs',
  toIR_args rest i l irs = (Normal l', irs') ->
  (exists ext, addressable irs' = addressable irs ++ ext) /\
  (forall j var md, rest !! j = Some (mkAsmArg Arg_Memory (VarExp var) md) ->
     In (Stree var) (addressable irs')).
Proof.
  induction rest as [|arg rest IH]; intros i l irs l' irs' Hrun; simpl in *.
  - injection Hrun as _ <-. split; [|done]. exists []. by rewrite app_nil_r.
  - destruct (resolve_arg arg (clobbers_mem l) irs) as [[r| |] irs1] eqn:Hr;
      try done.
    destruct (resolve_arg_addressable _ _ _ _ _ Hr) as [[ext1 He1] Hin1].
    destruct (IH _ _ _ _ _ Hrun) as [[ext2 He2] Hin2].
    split.
    + exists (ext1 ++ ext2). by rewrite He2, He1, app_assoc.
    + intros [|j] var md Hj; simpl in Hj.
      * injection Hj as ->. rewrite He2. apply in_app_iff. left. eauto.
      * eauto.
Qed.

(** X9.  Lowering only adds to the declarations marked addressable, and after a
    statement is lowered the variable of each of its [Arg_Memory] operands
    is among them. *)
Theorem memory_variable_addressable this code irs c' irs' :
  asmcode this = Some code ->
  AsmStatement_toIR this irs = (Normal tt, c', irs') ->
  (exists ext, addressable irs' = addressable irs ++ ext) /\
  (forall i var md,
     args code !! i = Some (mkAsmArg Arg_Memory (VarExp var) md) ->
     In (Stree var) (addressable irs')).
Proof.
  intros Hcode Hrun.
  destruct (toIR_Normal_state _ _ _ _ _ Hcode Hrun) as (l & irs1 & Hargs & Ha & _).
  rewrite Ha. by eapply toIR_args_addressable.
Qed.

(** ** Operand references that name an operand *)

Lemma digit_of_small v :
  0 <= v < 10 ->
  is_digit (char_of_int (int_of_char "0" + v)) = true /\
  digit_slot (char_of_int (int_of_char "0" + v)) = Z.to_nat v.
Proof.
  intros Hv.
  assert (Hc : v = 0 \/ v = 1 \/ v = 2 \/ v = 3 \/ v = 4 \/ v = 5 \/ v = 6 \/
               v = 7 \/ v = 8 \/ v = 9) by lia.
  repeat destruct Hc as [->|Hc]; try subst v; by vm_compute.
Qed.

Lemma char_of_digit c :
  is_digit c = true ->
  char_of_int (int_of_char "0" + Z.of_nat (digit_slot c)) = c.
Proof.
  unfold is_digit, digit_slot, char_of_int. intros H.
  apply andb_prop in H as [H1 H2]. apply Z.leb_le in H1, H2.
  change (int_of_char "0") with 48 in *. change (int_of_char "9") with 57 in *.
  rewrite Z2Nat.id by lia.
  replace (48 + (int_of_char c - 48)) with (int_of_char c) by lia.
  rewrite Z.mod_small by lia. unfold int_of_char.
  by rewrite N2Z.id, ascii_N_embedding.
Qed.

(** Rewriting looks at the table only in the slots the template names. *)
Lemma rewrite_template_ext n m m' p : forall pct,
  (forall d, (d < n)%nat -> m !!! d = m' !!! d) ->
  refs_below n pct p = true ->
  rewrite_template m pct p = rewrite_template m' pct p.
Proof.
  induction p as [|c p IH]; intros pct Hm Hr; [done|].
  simpl in *. destruct pct.
  - destruct (is_digit c).
    + apply andb_prop in Hr as [Hd Hr]. apply Nat.ltb_lt in Hd.
      by rewrite (Hm _ Hd), (IH false Hm Hr).
    + destruct (is_pct c); by rewrite (IH _ Hm Hr).
  - destruct (is_pct c); by rewrite (IH _ Hm Hr).
Qed.

Lemma rewrite_template_id n m p : forall pct,
  (forall d, (d < n)%nat -> m !!! d = Z.of_nat d) ->
  refs_below n pct p = true ->
  rewrite_template m pct p = p.
Proof.
  induction p as [|c p IH]; intros pct Hm Hr; [done|].
  simpl in *. destruct pct.
  - destruct (is_digit c) eqn:Hc.
    + apply andb_prop in Hr as [Hd Hr]. apply Nat.ltb_lt in Hd.
      by rewrite (Hm _ Hd), (char_of_digit c Hc), (IH false Hm Hr).
    + destruct (is_pct c); by rewrite (IH _ Hm Hr).
  - destruct (is_pct c); by rewrite (IH _ Hm Hr).
Qed.

(** A table into [0, n) turns references below [n] into references below
    [n]. *)
Lemma refs_below_rewrite n m p : forall pct,
  (n <= 10)%nat ->
  (forall d, (d < n)%nat -> 0 <= m !!! d < Z.of_nat n) ->
  refs_below n pct p = true ->
  refs_below n pct (rewrite_template m pct p) = true.
Proof.
  induction p as [|c p IH]; intros pct Hn Hm Hr; [done|].
  simpl in *. destruct pct.
  - destruct (is_digit c) eqn:Hc.
    + apply andb_prop in Hr as [Hd Hr]. apply Nat.ltb_lt in Hd.
      pose proof (Hm _ Hd) as Hmd.
      destruct (digit_of_small (m !!! digit_slot c)) as [Hdig Hslot]; [lia|].
      simpl. rewrite Hdig, Hslot, (IH false Hn Hm Hr).
      rewrite andb_true_r. apply Nat.ltb_lt. lia.
    + destruct (is_pct c) eqn:Hp; simpl; rewrite Hc, Hp; by apply IH.
  - destruct (is_pct c) eqn:Hp; simpl; rewrite Hp; by apply IH.
Qed.

(** X5.  In a lowered statement, a reference to an existing operand (an
    unescaped percent sign and a digit below the operand count) is
    rewritten to the decimal digit of that operand's canonical position. *)
Theorem template_reference_rewritten this code irs c' irs' pre d post arg :
  asmcode this = Some code ->
  AsmStatement_toIR this irs = (Normal tt, c', irs') ->
  insnTemplate code = pre +:+ String "%" (String d post) ->
  scan false pre = false -> is_digit d = true ->
  args code !! digit_slot d = Some arg ->
  exists m t rest d',
    final_arg_map code irs = Some m /\
    statementList irs' = statementList irs ++ t :: rest /\
    asm_string t =
      rewrite_template m false pre +:+
      String "%" (String d' (rewrite_template m false post)) /\
    is_digit d' = true /\
    Z.of_nat (digit_slot d') = canonical (args code) (digit_slot d) arg.
Proof.
  intros Hcode Hrun Htmpl Hpre Hd Harg.
  destruct (toIR_Normal_inv _ _ _ _ _ Hcode Hrun)
    as (l & irs1 & m & Hlen & Hargs & Hm & Hs & _).
  pose proof (final_arg_map_canonical code irs m Hlen Hm _ _ Harg) as Hcan.
  pose proof (canonical_range _ _ _ Harg) as Hrange.
  pose proof (n_out_in_length (args code)) as Hsum.
  destruct (digit_of_small (m !!! digit_slot d)) as [Hdig Hslot].
  { rewrite Hcan. destruct (is_output arg); lia. }
  eexists m, _, _, _. split; [done|]. split; [exact Hs|]. simpl.
  split; [|split; [exact Hdig|]].
  - rewrite Htmpl, rewrite_template_app, Hpre.
    cbn [rewrite_template]. change (is_pct "%") with true. cbv iota.
    by rewrite Hd.
  - rewrite Hslot, <- Hcan. rewrite Z2Nat.id; [done|].
    rewrite Hcan. destruct (is_output arg); lia.
Qed.

(** ** Outputs declared before inputs *)

Lemma n_out_take_drop l i : (n_out (take i l) + n_out (drop i l) = n_out l)%nat.
Proof.
  unfold n_out. rewrite <- (take_drop i l) at 3.
  by rewrite List.filter_app, length_app.
Qed.

Lemma n_out_all_inputs l :
  Forall (fun a => is_output a = false) l -> n_out l = 0%nat.
Proof.
  induction 1 as [|a l Ha _ IH]; [done|].
  by rewrite n_out_cons, Ha, IH.
Qed.

Lemma n_in_all_outputs l :
  Forall (fun a => is_output a = true) l -> n_in l = 0%nat.
Proof.
  induction 1 as [|a l Ha _ IH]; [done|].
  by rewrite n_in_cons, Ha, IH.
Qed.

Lemma canonical_ordered l i arg :
  (forall j k a b, (j < k)%nat -> l !! j = Some a -> l !! k = Some b ->
     is_output b = true -> is_output a = true) ->
  l !! i = Some arg -> canonical l i arg = Z.of_nat i.
Proof.
  intros Hord Hi. unfold canonical.
  apply lookup_lt_Some in Hi as Hlt.
  pose proof (n_out_in_length (take i l)) as Hsum.
  rewrite length_take, Nat.min_l in Hsum by lia.
  destruct (is_output arg) eqn:Ho.
  - rewrite n_in_all_outputs in Hsum; [lia|].
    apply Forall_forall. intros a Ha.
    apply list_elem_of_lookup in Ha as [j Hj].
    apply lookup_take_Some in Hj as [Hj Hji]. eauto.
  - pose proof (n_out_take_drop l i) as Hsplit.
    rewrite (n_out_all_inputs (drop i l)) in Hsplit; [lia|].
    apply Forall_forall. intros b Hb.
    apply list_elem_of_lookup in Hb as [k Hk].
    rewrite lookup_drop in Hk.
    destruct k as [|k].
    + rewrite Nat.add_0_r, Hi in Hk. by injection Hk as <-.
    + destruct (is_output b) eqn:Hb; [|done].
      rewrite <- Ho. symmetry.
      eapply (Hord i (i + S k)%nat); [lia|done|done|done].
Qed.

(** X6.  When no input operand is declared before an output operand, the
    canonical order is the declaration order, and lowering leaves a
    template whose references all name existing operands exactly as it
    was. *)
Theorem ordered_operands_keep_template this code irs c' irs' :
  asmcode this = Some code ->
  AsmStatement_toIR this irs = (Normal tt, c', irs') ->
  (forall j k a b, (j < k)%nat ->
     args code !! j = Some a -> args code !! k = Some b ->
     is_output b = true -> is_output a = true) ->
  refs_below (length (args code)) false (insnTemplate code) = true ->
  c' = Some code /\
  exists t rest,
    statementList irs' = statementList irs ++ t :: rest /\
    asm_string t = insnTemplate code.
Proof.
  intros Hcode Hrun Hord Hrefs.
  destruct (toIR_Normal_inv _ _ _ _ _ Hcode Hrun)
    as (l & irs1 & m & Hlen & Hargs & Hm & Hs & _ & Hc).
  assert (Hid : rewrite_template m false (insnTemplate code) = insnTemplate code).
  { apply (rewrite_template_id (length (args code))); [|done].
    intros d Hd.
    destruct (lookup_lt_is_Some_2 (args code) d Hd) as [a Ha].
    rewrite (final_arg_map_canonical code irs m Hlen Hm d a Ha).
    by apply canonical_ordered. }
  rewrite Hid in Hs, Hc. split.
  - rewrite Hc. by destruct code.
  - eexists _, _. split; [exact Hs|done].
Qed.

(** ** Lowering the same code twice *)

Lemma toIR_Normal_fate this code irs c' irs' :
  asmcode this = Some code ->
  AsmStatement_toIR this irs = (Normal tt, c', irs') ->
  (length (args code) <= 10)%nat /\ args_fate (args code) = Resolves.
Proof.
  intros Hcode Hrun.
  destruct (toIR_Normal_inv _ _ _ _ _ Hcode Hrun) as (_ & _ & _ & Hlen & _).
  split; [done|].
  pose proof (toIR_fate this code irs Hcode Hlen) as Hf.
  rewrite Hrun in Hf. simpl in Hf.
  destruct (args_fate (args code)); [done| |]; by destruct Hf.
Qed.

Lemma toIR_runs this code irs :
  asmcode this = Some code -> (length (args code) <= 10)%nat ->
  args_fate (args code) = Resolves ->
  exists c' irs', AsmStatement_toIR this irs = (Normal tt, c', irs').
Proof.
  intros Hcode Hlen Hfate.
  pose proof (toIR_fate this code irs Hcode Hlen) as Hf. rewrite Hfate in Hf.
  destruct (AsmStatement_toIR this irs) as [[o c'] irs']. simpl in Hf.
  subst o. eauto.
Qed.

(** X7.  The template is rewritten in place, in the code object the statement
    points to.  When a statement has been lowered, lowering any statement
    that holds the same code object (the statement itself, or a copy made
    by [syntaxCopy]) runs to its end again and rewrites the rewritten
    template once more with the same table, whatever the state is then. *)
Theorem relowering_rewrites_again this that code code' irs irs1 irs0 :
  asmcode this = Some code ->
  AsmStatement_toIR this irs = (Normal tt, Some code', irs1) ->
  refs_below (length (args code)) false (insnTemplate code) = true ->
  asmcode that = Some code' ->
  exists m code'' irs2,
    final_arg_map code irs = Some m /\
    insnTemplate code' = rewrite_template m false (insnTemplate code) /\
    AsmStatement_toIR that irs0 = (Normal tt, Some code'', irs2) /\
    insnTemplate code'' =
      rewrite_template m false (rewrite_template m false (insnTemplate code)).
Proof.
  intros Hcode Hrun Hrefs Hthat.
  destruct (toIR_Normal_fate _ _ _ _ _ Hcode Hrun) as [Hlen Hfate].
  destruct (toIR_Normal_inv _ _ _ _ _ Hcode Hrun)
    as (l & irs' & m & _ & _ & Hm & _ & _ & Hc').
  injection Hc' as Hc'.
  assert (Hargs' : args code' = args code) by (by rewrite Hc').
  assert (Htmpl' : insnTemplate code' =
                   rewrite_template m false (insnTemplate code))
    by (by rewrite Hc').
  destruct (toIR_runs that code' irs0 Hthat) as (c2 & irs2 & Hrun2);
    [by rewrite Hargs'|by rewrite Hargs'|].
  destruct (toIR_Normal_inv _ _ _ _ _ Hthat Hrun2)
    as (l2 & irs2' & m2 & Hlen2 & _ & Hm2 & _ & _ & Hc2).
  assert (Hrange : forall d, (d < length (args code))%nat ->
            0 <= m !!! d < Z.of_nat (length (args code))).
  { intros d Hd.
    destruct (lookup_lt_is_Some_2 (args code) d Hd) as [a Ha].
    rewrite (final_arg_map_canonical code irs m Hlen Hm d a Ha).
    pose proof (canonical_range _ _ _ Ha) as Hr.
    pose proof (n_out_in_length (args code)).
    destruct (is_output a); lia. }
  assert (Hsame : forall d, (d < length (args code))%nat ->
            m2 !!! d = m !!! d).
  { intros d Hd.
    destruct (lookup_lt_is_Some_2 (args code) d Hd) as [a Ha].
    rewrite (final_arg_map_canonical code irs m Hlen Hm d a Ha).
    rewrite (final_arg_map_canonical code' irs0 m2 Hlen2 Hm2 d a)
      by (by rewrite Hargs').
    by rewrite Hargs'. }
  exists m, (mkAsmCode (rewrite_template m2 false (insnTemplate code'))
               (args code') (moreRegs code') (dollarLabel code')
               (clobbersMemory code')), irs2.
  split; [done|]. split; [done|]. split; [by rewrite Hrun2, Hc2|].
  simpl. rewrite Htmpl'.
  apply (rewrite_template_ext (length (args code))); [done|].
  by apply refs_below_rewrite.
Qed.

(** ** Lowering a syntax copy *)

Lemma regs_zero_selects_nothing l :
  List.map regInfo
    (List.filter (fun i => negb (and_u 0 (shl1 (Z.of_nat i)) =? 0)) l) = [].
Proof.
  assert (Hz : forall x, negb (and_u 0 x =? 0) = false).
  { intros x. unfold and_u, uint32. by rewrite Zmod_0_l, Z.land_0_l. }
  induction l as [|i l IH]; [done|].
  cbn [List.filter]. by rewrite Hz.
Qed.

(** The result of a call whose operands resolve, written out. *)
Lemma toIR_Normal_eq this code irs l irs1 :
  asmcode this = Some code -> (length (args code) <= 10)%nat ->
  toIR_args (args code) 0 (locals0 code) irs = (Normal l, irs1) ->
  let m := remap (length (args code)) (n_outputs l) (arg_map l) in
  let insnt := rewrite_template m false (insnTemplate code) in
  let t := mkAsmExpr insnt (outputs l) (inputs l)
             (build_clobbers (naked irs1) (regs this) (moreRegs code)
                             (clobbers_mem l)) true false in
  AsmStatement_toIR this irs =
    (Normal tt,
     Some (mkAsmCode insnt (args code) (moreRegs code) (dollarLabel code)
                     (clobbersMemory code)),
     if uint32 (dollarLabel code) =? 0 then addExp t irs1
     else d_expand_priv_asm_label (addExp t irs1) (dollarLabel code)).
Proof.
  intros Hcode Hlen Hargs. unfold AsmStatement_toIR.
  apply Nat.ltb_ge in Hlen. by rewrite Hcode, Hlen, Hargs.
Qed.

Lemma statementList_emitted t irs1 code :
  statementList
    (if uint32 (dollarLabel code) =? 0 then addExp t irs1
     else d_expand_priv_asm_label (addExp t irs1) (dollarLabel code))
  = statementList irs1 ++ t :: label_records code.
Proof.
  unfold label_records, d_expand_priv_asm_label, addExp.
  destruct (uint32 (dollarLabel code) =? 0); cbn [statementList];
    rewrite <- ?app_assoc; reflexivity.
Qed.

(** X8.  [syntaxCopy] does not carry the register mask over.  Lowering the copy
    of a statement that lowers gives the same template, outputs and inputs
    as lowering the statement, but a clobber list built from a clear mask:
    outside a naked function the statement's list is the registers of its
    mask followed by the copy's list. *)
Theorem syntaxCopy_drops_regs this code irs c' irs' :
  asmcode this = Some code ->
  AsmStatement_toIR this irs = (Normal tt, c', irs') ->
  regs (AsmStatement_syntaxCopy this) = 0 /\
  exists insnt outs ins clobbers clobbers2 rest irs2,
    statementList irs' =
      statementList irs ++ mkAsmExpr insnt outs ins clobbers true false :: rest /\
    AsmStatement_toIR (AsmStatement_syntaxCopy this) irs = (Normal tt, c', irs2) /\
    statementList irs2 =
      statementList irs ++ mkAsmExpr insnt outs ins clobbers2 true false :: rest /\
    (naked irs = false ->
     clobbers =
       List.map regInfo
         (List.filter
            (fun i => negb (and_u (regs this) (shl1 (Z.of_nat i)) =? 0))
            (seq 0 32)) ++
       clobbers2).
Proof.
  intros Hcode Hrun. split; [done|].
  destruct (toIR_Normal_inv _ _ _ _ _ Hcode Hrun)
    as (l & irs1 & m & Hlen & Hargs & Hm & Hs & _ & Hc).
  pose proof (toIR_args_frame (args code) 0 (locals0 code) irs) as [Hsl Hnk].
  rewrite Hargs in Hsl, Hnk. cbn [snd] in Hsl, Hnk.
  assert (Hm' : m = remap (length (args code)) (n_outputs l) (arg_map l)).
  { unfold final_arg_map in Hm. rewrite Hargs in Hm. by injection Hm as <-. }
  pose proof (toIR_Normal_eq (AsmStatement_syntaxCopy this) code irs l irs1
                Hcode Hlen Hargs) as Hcopy.
  cbv zeta in Hcopy. rewrite <- Hm', <- Hc, Hnk in Hcopy.
  change (regs (AsmStatement_syntaxCopy this)) with 0 in Hcopy.
  exists (rewrite_template m false (insnTemplate code)), (outputs l), (inputs l),
    (build_clobbers (naked irs) (regs this) (moreRegs code) (clobbers_mem l)),
    (build_clobbers (naked irs) 0 (moreRegs code) (clobbers_mem l)),
    (label_records code).
  eexists. split; [exact Hs|]. split; [exact Hcopy|]. split.
  - rewrite statementList_emitted, Hsl. reflexivity.
  - intros ->.
    rewrite (build_clobbers_unfold (regs this)), (build_clobbers_unfold 0).
    rewrite regs_zero_selects_nothing, app_nil_l. reflexivity.
Qed.

(** * The private label *)

Lemma string_app_cons c (s1 s2 : string) :
  String c s1 +:+ s2 = String c (s1 +:+ s2).
Proof. reflexivity. Qed.

Lemma string_app_nil_l (s : string) : EmptyString +:+ s = s.
Proof. reflexivity. Qed.

Lemma string_app_nil_r (s : string) : s +:+ EmptyString = s.
Proof.
  induction s as [|c s IH]; [done|]. by rewrite string_app_cons, IH.
Qed.

Lemma string_app_assoc (s1 s2 s3 : string) :
  (s1 +:+ s2) +:+ s3 = s1 +:+ (s2 +:+ s3).
Proof.
  induction s1 as [|c s1 IH]; [done|]. by rewrite !string_app_cons, IH.
Qed.

Lemma string_app_length (s1 s2 : string) :
  String.length (s1 +:+ s2) = (String.length s1 + String.length s2)%nat.
Proof.
  induction s1 as [|c s1 IH]; [done|].
  rewrite string_app_cons. simpl. by rewrite IH.
Qed.

Lemma pretty_N_go_length k : forall x s,
  (x < 10 ^ N.of_nat k)%N ->
  (String.length (pretty_N_go x s) <= k + String.length s)%nat.
Proof.
  induction k as [|k IH]; intros x s Hx.
  - assert (x = 0%N) as -> by (simpl in Hx; lia).
    rewrite pretty_N_go_0. lia.
  - destruct (decide (x = 0%N)) as [->|Hne].
    + rewrite pretty_N_go_0. lia.
    + rewrite pretty_N_go_step by lia.
      etrans; [apply IH|simpl; lia].
      apply N.Div0.div_lt_upper_bound.
      rewrite Nat2N.inj_succ, N.pow_succ_r' in Hx. lia.
Qed.

Lemma pretty_uint32_length n : (String.length (pretty (uint32 n)) <= 10)%nat.
Proof.
  unfold uint32.
  pose proof (Z.mod_pos_bound n (2 ^ 32) ltac:(lia)) as Hb.
  destruct (n mod 2 ^ 32) as [|p|p] eqn:Hp; [simpl; lia| |lia].
  unfold pretty, pretty_Z, pretty, pretty_positive, pretty, pretty_N.
  destruct (decide (N.pos p = 0%N)); [done|].
  etrans; [apply (pretty_N_go_length 10)|simpl; lia].
  change (10 ^ N.of_nat 10)%N with 10000000000%N. lia.
Qed.

(** X13.  The labels of two serial numbers are the same only if the numbers are
    (as [unsigned] values), and a label with its colon and terminator
    takes at most 18 of the 64 bytes of the buffer it is printed into. *)
Theorem priv_asm_label_name n m :
  (d_format_priv_asm_label n = d_format_priv_asm_label m ->
   uint32 n = uint32 m) /\
  (String.length (d_format_priv_asm_label n +:+ ":") + 1 <= 18)%nat.
Proof.
  split.
  - unfold d_format_priv_asm_label. intros H.
    rewrite !string_app_cons, !string_app_nil_l in H.
    injection H as H. by apply (inj pretty) in H.
  - unfold d_format_priv_asm_label.
    rewrite !string_app_length. pose proof (pretty_uint32_length n).
    simpl. lia.
Qed.

(** * The statement as source text *)

Lemma toCBuffer_tokens_spec rest : forall p buf,
  toCBuffer_tokens (token_nsep p) rest buf =
  buf +:+ foldr String.append EmptyString
            (imap (fun j t => separator (p :: rest) (S j) t +:+ Lexer.toChars t)
                  rest).
Proof.
  induction rest as [|t rest IH]; intros p buf.
  - cbn [toCBuffer_tokens imap foldr]. by rewrite string_app_nil_r.
  - cbn [toCBuffer_tokens]. cbv zeta. rewrite IH, imap_cons.
    cbn [foldr].
    change (separator (p :: t :: rest) 1 t)
      with (if token_nsep p && token_nsep t then " "%string else EmptyString).
    destruct (token_nsep p && token_nsep t);
      by rewrite ?string_app_nil_l, !string_app_assoc.
Qed.

(** X14.  [toCBuffer] only appends to the buffer: the opening "asm { ", the texts
    of the tokens in order, and the closing "; }" and line end.  One space
    is written before a token exactly when it and the token before it are
    both of a kind other than brackets, punctuation and literals; nothing
    is written before the first token. *)
Theorem toCBuffer_spacing nl tokens buf :
  AsmStatement_toCBuffer nl tokens buf =
  buf +:+ "asm { " +:+
  foldr String.append EmptyString
    (imap (fun i t => separator tokens i t +:+ Lexer.toChars t) tokens) +:+
  "; }" +:+ nl.
Proof.
  unfold AsmStatement_toCBuffer.
  destruct tokens as [|t rest].
  - cbn [toCBuffer_tokens imap foldr].
    by rewrite string_app_nil_l, string_app_assoc.
  - cbn [toCBuffer_tokens]. cbv zeta. cbn [andb].
    rewrite toCBuffer_tokens_spec, imap_cons. cbn [foldr].
    change (separator (t :: rest) 0 t) with EmptyString.
    by rewrite string_app_nil_l, !string_app_assoc.
Qed.

(** * Lowering the extended form *)

Lemma naturalString_spec e :
  naturalString e =
  if not_char_string e then AssertFailed else Normal (string_of e).
Proof. destruct e; simpl; try done. by destruct (sz =? 1). Qed.

Lemma ext_toIR_loop this args_ k :
  (k <= length args_)%nat ->
  length (Ext.argNames this) = length args_ ->
  length (Ext.argConstraints this) = length args_ ->
  let nout := Z.to_nat (uint32 (Ext.nOutputArgs this)) in
  let all := ext_entry <$> zip (zip args_ (Ext.argNames this))
                               (Ext.argConstraints this) in
  foldl (ext_toIR_step this args_) (Some (Normal ([], []))) (seq 0 k) =
  Some (if forallb (fun c => negb (not_char_string c))
                   (take k (Ext.argConstraints this))
        then Normal (take (k `min` nout) all, drop nout (take k all))
        else AssertFailed).
Proof.
  intros Hk Hnames Hcons nout all. induction k as [|k IH].
  - simpl. by rewrite take_0, drop_nil.
  - rewrite seq_S, foldl_app, IH by lia. cbn [foldl Nat.add].
    destruct (lookup_lt_is_Some_2 args_ k ltac:(lia)) as [e He].
    destruct (lookup_lt_is_Some_2 (Ext.argNames this) k ltac:(lia)) as [name Hn].
    destruct (lookup_lt_is_Some_2 (Ext.argConstraints this) k ltac:(lia))
      as [c Hc].
    rewrite (take_S_r _ _ _ Hc), forallb_app. cbn [forallb].
    rewrite andb_true_r.
    destruct (forallb _ (take k (Ext.argConstraints this))); [|reflexivity].
    unfold ext_toIR_step. rewrite He, Hn, Hc, naturalString_spec. cbn [andb].
    destruct (not_char_string c); cbn [negb]; [reflexivity|].
    cbv beta iota zeta.
    assert (Hall : all !! k = Some ((name, string_of c), toElem e)).
    { unfold all. rewrite list_lookup_fmap.
      assert (Hz : zip (zip args_ (Ext.argNames this)) (Ext.argConstraints this)
                     !! k = Some ((e, name), c)).
      { apply lookup_zip_with_Some. eexists _, _. split; [done|].
        split; [|done]. apply lookup_zip_with_Some. eauto. }
      by rewrite Hz. }
    assert (Hlen : (k < length all)%nat) by (by eapply lookup_lt_Some).
    unfold cons_. unfold ext_operand in *.
    destruct (Z.ltb_spec (Z.of_nat k) (uint32 (Ext.nOutputArgs this))) as [Hlt|Hge].
    + assert (k < nout)%nat by (unfold nout; lia).
      rewrite (Nat.min_l k), (Nat.min_l (S k)) by lia.
      rewrite !(take_S_r _ _ _ Hall).
      rewrite !drop_ge by (rewrite ?length_app, length_take; simpl; lia).
      reflexivity.
    + assert (nout <= k)%nat.
      { unfold nout, uint32 in *.
        pose proof (Z.mod_pos_bound (Ext.nOutputArgs this) (2 ^ 32) ltac:(lia)).
        lia. }
      rewrite (Nat.min_r k), (Nat.min_r (S k)) by lia.
      rewrite (take_S_r _ _ _ Hall).
      rewrite drop_app_le by (rewrite length_take; lia). reflexivity.
Qed.

Lemma ext_clobbers_loop cl : forall acc,
  foldl ext_clobbers_step (Normal acc) cl =
  if forallb (fun e => negb (not_char_string e)) cl
  then Normal (acc ++ (string_of <$> cl)) else AssertFailed.
Proof.
  assert (Hfail : forall l, foldl ext_clobbers_step AssertFailed l = AssertFailed).
  { induction l; simpl; auto. }
  induction cl as [|e cl IH]; intros acc; simpl.
  - by rewrite app_nil_r.
  - rewrite naturalString_spec.
    destruct (not_char_string e); simpl; [apply Hfail|].
    rewrite IH. unfold cons_. by rewrite <- app_assoc.
Qed.

(** The result of lowering, written out. *)
Lemma ExtAsmStatement_toIR_eq this :
  ext_parallel this ->
  ExtAsmStatement_toIR this =
  Some (if ext_checked this
        then Normal (mk_doAsm
                       (string_of (Ext.insnTemplate this))
                       (take (Z.to_nat (uint32 (Ext.nOutputArgs this)))
                             (ext_entries this))
                       (drop (Z.to_nat (uint32 (Ext.nOutputArgs this)))
                             (ext_entries this))
                       (string_of <$> default [] (Ext.clobbers this)))
        else AssertFailed).
Proof.
  intros Hpar. unfold ExtAsmStatement_toIR, ext_checked, ext_entries.
  set (nout := Z.to_nat (uint32 (Ext.nOutputArgs this))).
  assert (Hlists :
    match Ext.args this with
    | Some args_ =>
        foldl (ext_toIR_step this args_) (Some (Normal ([], [])))
              (seq 0 (length args_))
    | None => Some (Normal ([], []))
    end =
    Some (if match Ext.args this with
             | Some _ => forallb (fun c => negb (not_char_string c))
                                 (Ext.argConstraints this)
             | None => true
             end
          then Normal
                 (take nout (ext_entry <$>
                    zip (zip (default [] (Ext.args this)) (Ext.argNames this))
                        (Ext.argConstraints this)),
                  drop nout (ext_entry <$>
                    zip (zip (default [] (Ext.args this)) (Ext.argNames this))
                        (Ext.argConstraints this)))
          else AssertFailed)).
  { destruct (Ext.args this) as [a|] eqn:Ha.
    - destruct (Hpar a Ha) as [Hn Hc].
      rewrite (ext_toIR_loop this a (length a)) by (done || lia). simpl.
      rewrite <- Hc at 1. rewrite firstn_all.
      set (all := ext_entry <$> _).
      assert (Hlen : length all = length a).
      { unfold all. rewrite length_fmap, !length_zip_with. lia. }
      rewrite <- Hlen, firstn_all. fold nout.
      destruct (forallb _ _); [|done].
      do 3 f_equal. destruct (decide (nout <= length all)%nat).
      + by rewrite Nat.min_r by lia.
      + rewrite Nat.min_l by lia. by rewrite firstn_all, take_ge by lia.
    - simpl. by rewrite take_nil, drop_nil. }
  rewrite Hlists. clear Hlists.
  destruct (match Ext.args this with Some _ => _ | None => true end);
    [|done].
  simpl.
  assert (Hcl :
    match Ext.clobbers this with
    | Some clobbers_ => foldl ext_clobbers_step (Normal []) clobbers_
    | None => Normal []
    end =
    if forallb (fun e => negb (not_char_string e)) (default [] (Ext.clobbers this))
    then Normal (string_of <$> default [] (Ext.clobbers this))
    else AssertFailed).
  { destruct (Ext.clobbers this) as [cl|]; [|done].
    by rewrite ext_clobbers_loop. }
  rewrite Hcl. clear Hcl.
  destruct (forallb _ (default [] (Ext.clobbers this))); [|done].
  simpl. rewrite naturalString_spec.
  by destruct (not_char_string (Ext.insnTemplate this)).
Qed.

(** X10.  A statement whose template, constraints and clobbers are all constant
    char strings ends in one call to [doAsm]: the first [nOutputArgs]
    operands (all of them if there are fewer) are the outputs, the others
    the inputs, each list in declaration order, every operand with its own
    name and constraint, and the clobbers are the clobber strings in
    order. *)
Theorem ext_toIR_checked this :
  ext_parallel this -> ext_checked this = true ->
  exists call,
    ExtAsmStatement_toIR this = Some (Normal call) /\
    call_outputs call ++ call_inputs call = ext_entries this /\
    length (call_outputs call) =
      (Z.to_nat (uint32 (Ext.nOutputArgs this))
         `min` length (default [] (Ext.args this)))%nat /\
    call_clobbers call = string_of <$> default [] (Ext.clobbers this) /\
    call_insnt call = string_of (Ext.insnTemplate this).
Proof.
  intros Hpar Hok. rewrite (ExtAsmStatement_toIR_eq this Hpar), Hok.
  eexists. split; [done|]. simpl. split; [apply take_drop|].
  split; [|done].
  rewrite length_take. f_equal. unfold ext_entries.
  rewrite length_fmap, !length_zip_with.
  destruct (Ext.args this) as [a|] eqn:Ha; simpl; [|done].
  destruct (Hpar a Ha). lia.
Qed.

(** X11.  With parallel arrays lowering never reads past an array, and it stops
    at a failed assertion of [naturalString], with no call to [doAsm],
    exactly when the template, a constraint of an operand or a clobber is
    not a constant char string. *)
Theorem ext_toIR_asserts this :
  ext_parallel this ->
  ExtAsmStatement_toIR this <> None /\
  (ExtAsmStatement_toIR this = Some AssertFailed <-> ext_checked this = false).
Proof.
  intros Hpar. rewrite (ExtAsmStatement_toIR_eq this Hpar).
  split; [done|]. by destruct (ext_checked this).
Qed.

(** ** Checking, then lowering *)

(** The checked statement and the errors, written out. *)
Lemma semantic_result this :
  (forall a, Ext.args this = Some a ->
     length (Ext.argConstraints this) = length a) ->
  ExtAsmStatement_semantic this =
  Some (Ext.mkExtAsmStatement
          (semantic_string template_msg (Ext.insnTemplate this)).1
          (imap (fun i e => (semantic_operand (Ext.nOutputArgs this) i e).1)
             <$> Ext.args this)
          (Ext.argNames this)
          (match Ext.args this with
           | Some _ => List.map (fun c => (semantic_string constraint_msg c).1)
                                (Ext.argConstraints this)
           | None => Ext.argConstraints this
           end)
          (Ext.nOutputArgs this)
          (List.map (fun e => (semantic_string clobber_msg e).1)
             <$> Ext.clobbers this),
        (semantic_string template_msg (Ext.insnTemplate this)).2 ++
        concat (imap (operand_errors (Ext.nOutputArgs this))
                     (zip (default [] (Ext.args this))
                          (Ext.argConstraints this))) ++
        concat (List.map (fun e => (semantic_string clobber_msg e).2)
                         (default [] (Ext.clobbers this)))).
Proof.
  intros Hlen. unfold ExtAsmStatement_semantic. fold template_msg.
  destruct (semantic_string template_msg (Ext.insnTemplate this))
    as [insnt e0].
  destruct (Ext.args this) as [a|] eqn:Ha.
  - specialize (Hlen a eq_refl).
    rewrite (semantic_args_loop _ a (Ext.argConstraints this) e0 (length a))
      by (done || lia).
    rewrite (firstn_all a), (drop_all a), <- Hlen.
    rewrite firstn_all, drop_all, !app_nil_r. simpl.
    destruct (Ext.clobbers this) as [cl|] eqn:Hcl.
    + rewrite (semantic_clobbers_loop cl _ (length cl)) by lia.
      rewrite firstn_all, drop_all, app_nil_r. simpl.
      by rewrite <- !app_assoc.
    + simpl. by rewrite app_nil_r.
  - simpl.
    destruct (Ext.clobbers this) as [cl|] eqn:Hcl.
    + rewrite (semantic_clobbers_loop cl _ (length cl)) by lia.
      by rewrite firstn_all, drop_all, app_nil_r.
    + simpl. by rewrite app_nil_r.
Qed.

Lemma semantic_string_silent msg e :
  (semantic_string msg e).2 = [] ->
  not_char_string (semantic_string msg e).1 = false.
Proof.
  intros Hnil. destruct (not_char_string _) eqn:Hbad; [|done].
  apply semantic_string_reports in Hbad. rewrite Hnil in Hbad. done.
Qed.

Lemma concat_nil_inv {A} (l : list (list A)) x :
  concat l = [] -> In x l -> x = [].
Proof.
  intros Hnil Hx. destruct x as [|y x]; [done|].
  assert (In y (concat l)) as Hy.
  { apply in_concat. exists (y :: x). split; [done|]. by left. }
  rewrite Hnil in Hy. done.
Qed.

(** X12.  A statement that the checker passes without any error lowers without
    a failed assertion: with parallel arrays, when [semantic] reports
    nothing, [toIR] of the checked statement ends in its call to [doAsm],
    with one entry for each operand. *)
Theorem semantic_then_toIR this this' :
  ext_parallel this ->
  ExtAsmStatement_semantic this = Some (this', []) ->
  ext_checked this' = true /\
  exists call,
    ExtAsmStatement_toIR this' = Some (Normal call) /\
    (length (call_outputs call) + length (call_inputs call))%nat =
      length (default [] (Ext.args this)).
Proof.
  intros Hpar Hsem.
  assert (Hlen : forall a, Ext.args this = Some a ->
            length (Ext.argConstraints this) = length a).
  { intros a Ha. by destruct (Hpar a Ha). }
  rewrite (semantic_result this Hlen) in Hsem.
  injection Hsem as Hthis Herrs.
  apply app_eq_nil in Herrs as [He0 Herrs].
  apply app_eq_nil in Herrs as [HeA HeC].
  assert (Hpar' : ext_parallel this').
  { intros a' Ha'. rewrite <- Hthis in Ha' |- *. simpl in *.
    destruct (Ext.args this) as [a|] eqn:Ha; [|done].
    injection Ha' as <-. destruct (Hpar a Ha) as [Hn Hc].
    by rewrite length_imap, length_map. }
  assert (Hok : ext_checked this' = true).
  { unfold ext_checked. rewrite <- Hthis. simpl.
    rewrite (semantic_string_silent _ _ He0). simpl.
    rewrite andb_true_r. apply andb_true_intro. split.
    - destruct (Ext.args this) as [a|] eqn:Ha; [|done]. simpl.
      apply forallb_forall. intros c' Hc'.
      apply in_map_iff in Hc' as (c & <- & Hc).
      apply list_elem_of_In, list_elem_of_lookup in Hc as [i Hi].
      destruct (lookup_lt_is_Some_2 a i) as [e He].
      { rewrite <- (Hlen a eq_refl). by eapply lookup_lt_Some. }
      assert (Hin : In (operand_errors (Ext.nOutputArgs this) i (e, c))
                       (imap (operand_errors (Ext.nOutputArgs this))
                             (zip a (Ext.argConstraints this)))).
      { apply list_elem_of_In, list_elem_of_lookup. exists i.
        rewrite list_lookup_imap. apply fmap_Some. exists (e, c).
        split; [|done]. apply lookup_zip_with_Some. eauto. }
      apply (concat_nil_inv _ _ HeA) in Hin.
      unfold operand_errors in Hin. apply app_eq_nil in Hin as [_ Hin].
      simpl in Hin. by rewrite (semantic_string_silent _ _ Hin).
    - destruct (Ext.clobbers this) as [cl|] eqn:Hcl; [|done]. simpl.
      apply forallb_forall. intros e' He'.
      apply in_map_iff in He' as (e & <- & He).
      assert (Hin : In (semantic_string clobber_msg e).2
                       (List.map (fun e => (semantic_string clobber_msg e).2) cl)).
      { apply in_map_iff. eauto. }
      simpl in HeC. apply (concat_nil_inv _ _ HeC) in Hin.
      by rewrite (semantic_string_silent _ _ Hin). }
  split; [done|].
  rewrite (ExtAsmStatement_toIR_eq this' Hpar'), Hok.
  eexists. split; [done|]. simpl.
  rewrite <- length_app, take_drop. unfold ext_entries.
  rewrite length_fmap, !length_zip_with. rewrite <- Hthis. simpl.
  destruct (Ext.args this) as [a|] eqn:Ha; simpl; [|done].
  destruct (Hpar a Ha) as [Hn Hc].
  rewrite length_imap, length_map. lia.
Qed.

(** * The register mask *)

Lemma land_pow2 a i :
  0 <= i -> (Z.land a (2 ^ i) =? 0) = negb (Z.testbit a i).
Proof.
  intros Hi. destruct (Z.testbit a i) eqn:Hbit; simpl.
  - apply Z.eqb_neq. intros H0.
    assert (Hb : Z.testbit (Z.land a (2 ^ i)) i = true).
    { by rewrite Z.land_spec, Hbit, Z.pow2_bits_true. }
    rewrite H0, Z.bits_0 in Hb. done.
  - apply Z.eqb_eq. apply Z.bits_inj'. intros n Hn.
    rewrite Z.land_spec, Z.bits_0, Z.pow2_bits_eqb by done.
    destruct (Z.eqb_spec i n) as [->|]; [by rewrite Hbit|by rewrite andb_false_r].
Qed.

Lemma regs_test_bit x i :
  0 <= i < 32 ->
  negb (and_u x (shl1 i) =? 0) = Z.testbit x i.
Proof.
  intros Hi. unfold and_u, shl1, uint32, int32.
  destruct (Z.leb_spec 0 i); [|lia]. destruct (Z.ltb_spec i 32); [|lia].
  simpl. rewrite Z.shiftl_1_l.
  assert (Hpow : ((2 ^ i + 2 ^ 31) mod 2 ^ 32 - 2 ^ 31) mod 2 ^ 32 = 2 ^ i).
  { assert (0 < 2 ^ i <= 2 ^ 31) by (split; [lia|apply Z.pow_le_mono_r; lia]).
    destruct (decide (i = 31)) as [->|].
    - reflexivity.
    - assert (2 ^ i < 2 ^ 31) by (apply Z.pow_lt_mono_r; lia).
      rewrite (Z.mod_small (2 ^ i + 2 ^ 31)) by lia.
      rewrite Z.mod_small; lia. }
  rewrite Hpow, land_pow2 by lia.
  rewrite negb_involutive. apply Z.mod_pow2_bits_low. lia.
Qed.

(** X4.  Outside a naked function the clobber list starts with the names of the
    registers whose bit is set in the statement's mask, in increasing
    order of bit (bit 31 included, where [1 << 31] is the most negative
    [int]), followed by what the list would be with a clear mask. *)
Theorem regs_mask_clobbers regs_ more cm :
  build_clobbers false regs_ more cm =
  List.map regInfo
    (List.filter (fun i => Z.testbit regs_ (Z.of_nat i)) (seq 0 32)) ++
  build_clobbers false 0 more cm.
Proof.
  rewrite (build_clobbers_unfold regs_), (build_clobbers_unfold 0).
  rewrite regs_zero_selects_nothing, app_nil_l.
  rewrite (filter_ext_in
             (fun i => negb (and_u regs_ (shl1 (Z.of_nat i)) =? 0))
             (fun i => Z.testbit regs_ (Z.of_nat i)) (seq 0 32));
    [reflexivity|].
  intros i Hi. apply in_seq in Hi. apply regs_test_bit. lia.
Qed.

End Lowering.

(** * The clobbers of the further registers *)

(** C4, what the code does instead.  Outside a naked function the second
    clobber loop runs [i] over [0, 32), tests [moreRegs] against
    [1 << (i - 32)], a shift whose count is out of range for every [i], and
    names register [i] of the table, never register [i + 32].  On a machine
    whose shifter keeps the low five bits of the count, bit 0 of [moreRegs]
    alone puts the name of register 0 in the clobber list. *)
Theorem moreRegs_names_low_registers (regInfo : nat -> string) (shl : Z -> Z)
    (regs_ more : Z) (cm : bool) :
  build_clobbers regInfo shl false regs_ more cm =
    List.map regInfo
      (List.filter (fun i => negb (and_u regs_ (shl1 shl (Z.of_nat i)) =? 0))
                   (seq 0 32)) ++
    List.map regInfo
      (List.filter (fun i => negb (and_u more (shl (Z.of_nat i - 32)) =? 0))
                   (seq 0 32)) ++
    (if cm then [memory_name] else []) /\
  build_clobbers regInfo x86_shl false 0 1 false = [regInfo 0%nat].
Proof.
  split.
  - rewrite build_clobbers_unfold.
    rewrite (filter_ext_in
               (fun i => negb (and_u more (shl1 shl (Z.of_nat i - 32)) =? 0))
               (fun i => negb (and_u more (shl (Z.of_nat i - 32)) =? 0))
               (seq 0 32)); [reflexivity|].
    intros i Hi.
    pose proof (moreRegs_shift_out_of_range shl) as H.
    rewrite Forall_forall in H. rewrite H; [reflexivity|].
    by apply list_elem_of_In.
  - vm_compute. reflexivity.
Qed.

(** * The model on sample statements *)

Example lower_plain :
  statementList (AsmStatement_toIR sample_regInfo sample_frame ExprTree x86_shl
                   sample_garbage (stmt code_plain) (sample_irs true)).2
  = [mkAsmExpr "mov %0, %1" [("=m"%string, Stree 5)]
               [("i"%string, ExprTree (OtherExp 7))] [] true false].
Proof. vm_compute. reflexivity. Qed.

Example lower_swap :
  statementList (AsmStatement_toIR sample_regInfo sample_frame ExprTree x86_shl
                   sample_garbage (stmt code_swap) (sample_irs true)).2
  = [mkAsmExpr "mov %0, %1" [("=m"%string, Stree 5)]
               [("i"%string, ExprTree (OtherExp 7))] [] true false].
Proof. vm_compute. reflexivity. Qed.

Example lower_escaped :
  asm_string <$>
    statementList (AsmStatement_toIR sample_regInfo sample_frame ExprTree
                     x86_shl sample_garbage (stmt code_escaped)
                     (sample_irs true)).2
  = ["%%0"%string].
Proof. vm_compute. reflexivity. Qed.

(** Outside a naked function: registers 0 and 2 of the mask, register 0
    again for bit 0 of [moreRegs], and "memory". *)
Example lower_clobbers :
  asm_clobbers <$>
    statementList (AsmStatement_toIR sample_regInfo sample_frame ExprTree
                     x86_shl sample_garbage (stmt code_clobbers)
                     (sample_irs false)).2
  = [["r0"; "r2"; "r0"; "memory"]%string; []].
Proof. vm_compute. reflexivity. Qed.

(** Against C2 as stated: eleven operands end in the failed assertion with
    no error reported, and the digit of "%1" over a single operand is used
    to index the remap table, the record being emitted, without any error,
    with the byte the unset slot yields. *)
Lemma capacity_not_diagnosed :
  AsmStatement_toIR sample_regInfo sample_frame ExprTree x86_shl
       sample_garbage (stmt code_eleven) (sample_irs false)
    = (AssertFailed, Some code_eleven, sample_irs false) /\
  errors (sample_irs false) = [] /\
  (AsmStatement_toIR sample_regInfo sample_frame ExprTree x86_shl
       sample_garbage (stmt code_digit) (sample_irs false)).1.1 = Normal tt /\
  errors (AsmStatement_toIR sample_regInfo sample_frame ExprTree x86_shl
            sample_garbage (stmt code_digit) (sample_irs false)).2 = [] /\
  asm_string <$>
    statementList (AsmStatement_toIR sample_regInfo sample_frame ExprTree
                     x86_shl sample_garbage (stmt code_digit)
                     (sample_irs false)).2
    = [String "%" (String (char_of_int (int_of_char "0" + sample_garbage 1))
                          EmptyString)] /\
  char_of_int (int_of_char "0" + sample_garbage 1) = ascii_of_N 25.
Proof. repeat split; vm_compute; reflexivity. Qed.

(** Against C3 as stated: in "%a1" the digit after the modifier letter is
    replaced by the canonical position of operand 1. *)
Lemma modifier_digit_substituted :
  rewrite_template [1; 0] false "%a1" = "%a0"%string /\
  asm_string <$> statementList (AsmStatement_toIR sample_regInfo sample_frame ExprTree x86_shl
       sample_garbage (stmt code_modifier)
                                            (sample_irs false)).2
    = ["lea %a0, %1"%string].
Proof. split; vm_compute; reflexivity. Qed.

(** Against C8 as stated: rewriting "%b1" changes the byte at offset 2, a
    digit that follows the letter at offset 1 and not a percent sign. *)
Lemma digit_after_letter_changes :
  String.get 1 "%b1" = Some "b"%char /\
  String.get 2 "%b1" = Some "1"%char /\
  String.get 2 (rewrite_template [1; 0] false "%b1") = Some "0"%char.
Proof. repeat split; vm_compute; reflexivity. Qed.

(** ** The theorems at the sample statements *)

Lemma arg_map_bijection_witness :
  (length (args code_swap) <= 10)%nat /\
  final_arg_map sample_frame ExprTree sample_garbage code_swap (sample_irs false)
    = Some (1 :: 0 :: (sample_garbage <$> seq 2 8)) /\
  (forall i j, (i < 2)%nat -> (j < 2)%nat ->
     (1 :: 0 :: (sample_garbage <$> seq 2 8)) !!! i =
     (1 :: 0 :: (sample_garbage <$> seq 2 8)) !!! j -> i = j).
Proof.
  assert (Hlen : (length (args code_swap) <= 10)%nat) by (vm_compute; lia).
  assert (Hm : final_arg_map sample_frame ExprTree sample_garbage code_swap
                 (sample_irs false)
               = Some (1 :: 0 :: (sample_garbage <$> seq 2 8)))
    by (vm_compute; reflexivity).
  split; [exact Hlen|]. split; [exact Hm|].
  exact (proj1 (proj2 (proj2
    (arg_map_bijection sample_frame ExprTree sample_garbage code_swap
       (sample_irs false) _ Hlen Hm)))).
Defined.

Lemma modifier_keeps_pending_witness :
  scan false "%" = true /\ is_digit "a" = false /\ is_pct "a" = false /\
  is_digit "1" = true /\
  rewrite_template [1; 0] false "%a1" = "%a0"%string.
Proof.
  assert (H1 : scan false "%" = true) by reflexivity.
  assert (H2 : is_digit "a" = false) by reflexivity.
  assert (H3 : is_pct "a" = false) by reflexivity.
  assert (H4 : is_digit "1" = true) by reflexivity.
  repeat (split; [assumption|]).
  exact (proj2 (proj2
    (modifier_keeps_pending [1; 0] false "%" "a" "1" "" H1 H2 H3 H4))).
Defined.

Lemma rewrite_template_frame_witness :
  String.get 2 "%a1 %%0" = Some "1"%char /\
  String.get 2 (rewrite_template [1; 0] false "%a1 %%0") <> Some "1"%char /\
  (exists a b, String.substring 0 2 "%a1 %%0" = a +:+ String "%" b /\
               scan false a = false /\ modifiers b = true) /\
  rewrite_template [1; 0] false "%a1 %%0" = "%a0 %%0"%string.
Proof.
  destruct (rewrite_template_frame [1; 0] "%a1 %%0") as (_ & Hchg & Hesc).
  assert (Hget : String.get 2 "%a1 %%0" = Some "1"%char) by reflexivity.
  assert (Hne : String.get 2 (rewrite_template [1; 0] false "%a1 %%0")
                <> Some "1"%char) by (vm_compute; discriminate).
  split; [exact Hget|]. split; [exact Hne|]. split.
  - exact (proj2 (Hchg 2%nat "1"%char Hget Hne)).
  - exact (Hesc "%a1 " "0"%char "" eq_refl eq_refl eq_refl).
Defined.

Lemma naked_no_clobbers_witness :
  naked (sample_irs true) = true /\
  exists new,
    statementList (AsmStatement_toIR sample_regInfo sample_frame ExprTree x86_shl
       sample_garbage (stmt code_clobbers) (sample_irs true)).2
      = statementList (sample_irs true) ++ new /\
    Forall (fun t => asm_clobbers t = []) new.
Proof.
  split; [reflexivity|].
  exact (naked_no_clobbers sample_regInfo sample_frame ExprTree x86_shl
           sample_garbage (stmt code_clobbers) (sample_irs true) eq_refl).
Defined.

Lemma memory_operand_lists_witness :
  exists t rest,
    statementList (AsmStatement_toIR sample_regInfo sample_frame ExprTree x86_shl
       sample_garbage (stmt code_swap) (sample_irs false)).2
      = statementList (sample_irs false) ++ t :: rest /\
    Forall (fun e => e.1 = "=m"%string \/ e.1 = "+m"%string) (asm_outputs t) /\
    Forall (fun e => e.1 = "i"%string \/ e.1 = "p"%string \/ e.1 = "m"%string)
           (asm_inputs t).
Proof.
  destruct (memory_operand_lists sample_regInfo sample_frame ExprTree x86_shl
              sample_garbage (stmt code_swap) code_swap (sample_irs false)
              (AsmStatement_toIR sample_regInfo sample_frame ExprTree x86_shl
       sample_garbage (stmt code_swap) (sample_irs false)).1.2
              (AsmStatement_toIR sample_regInfo sample_frame ExprTree x86_shl
       sample_garbage (stmt code_swap) (sample_irs false)).2
              eq_refl eq_refl)
    as (t & rest & Hs & _ & _ & Ho & Hi & _).
  exists t, rest. split; [exact Hs|]. split; [exact Ho|exact Hi].
Defined.

Lemma frame_relative_unresolved_witness :
  sample_frame (Stree 9) = None /\
  (AsmStatement_toIR sample_regInfo sample_frame ExprTree x86_shl
       sample_garbage (stmt code_not_frame) (sample_irs false)).1.1 = Returned /\
  errors (AsmStatement_toIR sample_regInfo sample_frame ExprTree x86_shl
       sample_garbage (stmt code_not_frame) (sample_irs false)).2
    = ["argument not frame relative"%string] /\
  statementList (AsmStatement_toIR sample_regInfo sample_frame ExprTree x86_shl
       sample_garbage (stmt code_not_frame) (sample_irs false)).2 = [].
Proof.
  destruct (frame_relative_unresolved sample_regInfo sample_frame ExprTree
              x86_shl sample_garbage (stmt code_not_frame) code_not_frame
              (sample_irs false) 1 9%N Mode_Output eq_refl eq_refl eq_refl)
    as (_ & Hs & _ & Herr).
  destruct Herr as [Ho He].
  - vm_compute. lia.
  - repeat constructor; discriminate.
  - split; [reflexivity|]. split; [exact Ho|]. split; [exact He|exact Hs].
Defined.

Lemma dollar_operand_asserts_witness :
  (AsmStatement_toIR sample_regInfo sample_frame ExprTree x86_shl
       sample_garbage (stmt code_dollar) (sample_irs false)).1.1 = AssertFailed /\
  errors (AsmStatement_toIR sample_regInfo sample_frame ExprTree x86_shl
       sample_garbage (stmt code_dollar) (sample_irs false)).2 = [] /\
  statementList (AsmStatement_toIR sample_regInfo sample_frame ExprTree x86_shl
       sample_garbage (stmt code_dollar) (sample_irs false)).2 = [].
Proof.
  destruct (dollar_operand_asserts sample_regInfo sample_frame ExprTree
              x86_shl sample_garbage (stmt code_dollar) code_dollar
              (sample_irs false) 1 (OtherExp 8) Mode_Input eq_refl eq_refl)
    as (_ & _ & Hs & _ & Herr).
  destruct Herr as [Ho He].
  - repeat constructor.
  - split; [exact Ho|]. split; [exact He|exact Hs].
Defined.

Lemma too_many_operands_assert_witness :
  (10 < length (args code_eleven))%nat /\
  AsmStatement_toIR sample_regInfo sample_frame ExprTree x86_shl
       sample_garbage (stmt code_eleven) (sample_irs false)
    = (AssertFailed, Some code_eleven, sample_irs false).
Proof.
  assert (Hlen : (10 < length (args code_eleven))%nat) by (vm_compute; lia).
  split; [exact Hlen|].
  exact (proj1 (too_many_operands_assert sample_regInfo sample_frame ExprTree
                  x86_shl sample_garbage (stmt code_eleven) code_eleven
                  (sample_irs false) eq_refl Hlen)).
Defined.

Lemma template_digit_unchecked_witness :
  is_digit "1" = true /\
  (length (args code_digit) <= digit_slot "1")%nat /\
  (AsmStatement_toIR sample_regInfo sample_frame ExprTree x86_shl
       sample_garbage (stmt code_digit) (sample_irs false)).1.1 = Normal tt /\
  errors (AsmStatement_toIR sample_regInfo sample_frame ExprTree x86_shl
       sample_garbage (stmt code_digit) (sample_irs false)).2 = [] /\
  exists m t rest,
    final_arg_map sample_frame ExprTree sample_garbage code_digit
      (sample_irs false) = Some m /\
    m !!! digit_slot "1" = sample_garbage (digit_slot "1") /\
    statementList (AsmStatement_toIR sample_regInfo sample_frame ExprTree x86_shl
       sample_garbage (stmt code_digit) (sample_irs false)).2
      = [] ++ t :: rest /\
    asm_string t =
      rewrite_template m false "" +:+
      String "%" (String (char_of_int (int_of_char "0" +
                                       sample_garbage (digit_slot "1")))
                         (rewrite_template m false "")).
Proof.
  assert (Hn : (length (args code_digit) <= digit_slot "1")%nat)
    by (vm_compute; lia).
  destruct (template_digit_unchecked sample_regInfo sample_frame ExprTree
              x86_shl sample_garbage (stmt code_digit) code_digit
              (sample_irs false)
              (AsmStatement_toIR sample_regInfo sample_frame ExprTree x86_shl
       sample_garbage (stmt code_digit) (sample_irs false)).1.2
              (AsmStatement_toIR sample_regInfo sample_frame ExprTree x86_shl
       sample_garbage (stmt code_digit) (sample_irs false)).2
              "" "1"%char "" eq_refl eq_refl eq_refl eq_refl eq_refl Hn)
    as [He Hex].
  split; [reflexivity|]. split; [exact Hn|]. split; [reflexivity|].
  split; [exact He|exact Hex].
Defined.

Lemma semantic_no_early_abort_witness :
  exists this' errs,
    ExtAsmStatement_semantic sample_semantic sample_optimize
      sample_modifiableLvalue 2 4 sample_ext = Some (this', errs) /\
    errs = [template_msg; "not an lvalue"%string; constraint_msg;
            constraint_msg; clobber_msg; clobber_msg].
Proof.
  destruct (semantic_no_early_abort sample_semantic sample_optimize
              sample_modifiableLvalue 2 4 sample_ext)
    as (this' & errs & Hrun & _ & _ & _ & Herrs & _).
  - intros a Ha. injection Ha as <-. reflexivity.
  - exists this', errs. split; [exact Hrun|]. exact Herrs.
Defined.

(** ** The further properties at the sample statements *)

Example toCBuffer_sample :
  AsmStatement_toCBuffer (String "010"%char EmptyString) sample_tokens ""
  = "asm { mov EAX,[EBX + 4];; }" +:+ String "010"%char EmptyString.
Proof. vm_compute. reflexivity. Qed.

Example ext_toIR_sample :
  ExtAsmStatement_toIR ExprTree sample_ext_checked
  = Some (Normal (mk_doAsm "mov %1, %0"
                    [((Some "dst", "=r"), ExprTree (VarExp 3))]
                    [((None, "r"), ExprTree (OtherExp 4))]
                    ["memory"]))%string.
Proof. vm_compute. reflexivity. Qed.

Lemma memory_clobber_flag_witness :
  naked (sample_irs false) = false /\
  exists t rest,
    statementList (AsmStatement_toIR sample_regInfo sample_frame ExprTree
                     x86_shl sample_garbage (stmt code_clobbers)
                     (sample_irs false)).2 = [] ++ t :: rest /\
    asm_clobbers t =
      build_clobbers sample_regInfo x86_shl false (regs (stmt code_clobbers))
                     (moreRegs code_clobbers) false ++
      (if negb (clobbersMemory code_clobbers =? 0)
          || existsb forces_memory (args code_clobbers)
       then [memory_name] else []).
Proof.
  split; [reflexivity|].
  destruct (memory_clobber_flag sample_regInfo sample_frame ExprTree x86_shl
              sample_garbage (stmt code_clobbers) code_clobbers
              (sample_irs false) _ _ eq_refl eq_refl)
    as (t & rest & Hs & _ & Hc).
  exists t, rest. split; [exact Hs|]. exact (Hc eq_refl).
Defined.


Lemma memory_variable_addressable_witness :
  In (Stree 5)
     (addressable (AsmStatement_toIR sample_regInfo sample_frame ExprTree
                     x86_shl sample_garbage (stmt code_swap)
                     (sample_irs false)).2).
Proof.
  exact (proj2 (memory_variable_addressable sample_regInfo sample_frame
                  ExprTree x86_shl sample_garbage (stmt code_swap) code_swap
                  (sample_irs false) _ _ eq_refl eq_refl)
               1%nat 5%N Mode_Output eq_refl).
Defined.

Lemma template_reference_rewritten_witness :
  scan false "mov " = false /\ is_digit "1" = true /\
  exists m t rest d',
    final_arg_map sample_frame ExprTree sample_garbage code_swap
      (sample_irs false) = Some m /\
    statementList (AsmStatement_toIR sample_regInfo sample_frame ExprTree
                     x86_shl sample_garbage (stmt code_swap)
                     (sample_irs false)).2 = [] ++ t :: rest /\
    asm_string t =
      rewrite_template m false "mov " +:+
      String "%" (String d' (rewrite_template m false ", %0")) /\
    is_digit d' = true /\
    Z.of_nat (digit_slot d') =
      canonical (args code_swap) (digit_slot "1")
                (mkAsmArg Arg_Memory (VarExp 5) Mode_Output).
Proof.
  split; [reflexivity|]. split; [reflexivity|].
  exact (template_reference_rewritten sample_regInfo sample_frame ExprTree
           x86_shl sample_garbage (stmt code_swap) code_swap (sample_irs false)
           _ _ "mov " "1"%char ", %0" _
           eq_refl eq_refl eq_refl eq_refl eq_refl eq_refl).
Defined.

Lemma ordered_operands_keep_template_witness :
  refs_below (length (args code_plain)) false (insnTemplate code_plain) = true /\
  (AsmStatement_toIR sample_regInfo sample_frame ExprTree x86_shl
     sample_garbage (stmt code_plain) (sample_irs false)).1.2 = Some code_plain.
Proof.
  split; [reflexivity|].
  refine (proj1 (ordered_operands_keep_template sample_regInfo sample_frame
                   ExprTree x86_shl sample_garbage (stmt code_plain) code_plain
                   (sample_irs false) _ _ eq_refl eq_refl _ eq_refl)).
  intros [|[|j]] [|[|k]] a b Hjk Ha Hb; simpl in Ha, Hb; try lia;
    try discriminate.
  injection Ha as <-. reflexivity.
Defined.

Lemma relowering_rewrites_again_witness :
  exists code'' irs2,
    AsmStatement_toIR sample_regInfo sample_frame ExprTree x86_shl
      sample_garbage
      (AsmStatement_syntaxCopy
         (stmt (mkAsmCode "mov %0, %1" (args code_swap) 0 0 0)))
      (sample_irs true)
    = (Normal tt, Some code'', irs2) /\
    insnTemplate code'' = "mov %1, %0"%string.
Proof.
  destruct (relowering_rewrites_again sample_regInfo sample_frame ExprTree
              x86_shl sample_garbage (stmt code_swap)
              (AsmStatement_syntaxCopy
                 (stmt (mkAsmCode "mov %0, %1" (args code_swap) 0 0 0)))
              code_swap (mkAsmCode "mov %0, %1" (args code_swap) 0 0 0)
              (sample_irs false) _ (sample_irs true)
              eq_refl eq_refl eq_refl eq_refl)
    as (m & code'' & irs2 & Hm & _ & Hrun & Ht).
  exists code'', irs2. split; [exact Hrun|].
  vm_compute in Hm. injection Hm as <-. exact Ht.
Defined.

Lemma syntaxCopy_drops_regs_witness :
  exists insnt outs ins clobbers clobbers2 rest irs2,
    statementList (AsmStatement_toIR sample_regInfo sample_frame ExprTree
                     x86_shl sample_garbage (stmt code_clobbers)
                     (sample_irs false)).2 =
      [] ++ mkAsmExpr insnt outs ins clobbers true false :: rest /\
    statementList irs2 =
      [] ++ mkAsmExpr insnt outs ins clobbers2 true false :: rest /\
    clobbers =
      List.map sample_regInfo
        (List.filter
           (fun i => negb (and_u 5 (shl1 x86_shl (Z.of_nat i)) =? 0))
           (seq 0 32)) ++ clobbers2.
Proof.
  destruct (syntaxCopy_drops_regs sample_regInfo sample_frame ExprTree
              x86_shl sample_garbage (stmt code_clobbers) code_clobbers
              (sample_irs false) _ _ eq_refl eq_refl)
    as (_ & insnt & outs & ins & cl & cl2 & rest & irs2 & Hs & _ & Hs2 & Hc).
  exists insnt, outs, ins, cl, cl2, rest, irs2.
  split; [exact Hs|]. split; [exact Hs2|]. exact (Hc eq_refl).
Defined.

Lemma priv_asm_label_name_witness :
  d_format_priv_asm_label 3 = d_format_priv_asm_label (2 ^ 32 + 3) /\
  uint32 3 = uint32 (2 ^ 32 + 3).
Proof.
  assert (H : d_format_priv_asm_label 3 = d_format_priv_asm_label (2 ^ 32 + 3))
    by (vm_compute; reflexivity).
  split; [exact H|]. exact (proj1 (priv_asm_label_name 3 (2 ^ 32 + 3)) H).
Defined.

Lemma ext_toIR_checked_witness :
  ext_checked sample_ext_checked = true /\
  exists call,
    ExtAsmStatement_toIR ExprTree sample_ext_checked = Some (Normal call) /\
    call_outputs call ++ call_inputs call = ext_entries ExprTree sample_ext_checked /\
    length (call_outputs call) = 1%nat.
Proof.
  split; [reflexivity|].
  destruct (ext_toIR_checked ExprTree sample_ext_checked)
    as (call & Hrun & Happ & Hlen & _).
  - intros a Ha. injection Ha as <-. split; reflexivity.
  - reflexivity.
  - exists call. split; [exact Hrun|]. split; [exact Happ|exact Hlen].
Defined.

Lemma ext_toIR_asserts_witness :
  ext_checked sample_ext = false /\
  ExtAsmStatement_toIR ExprTree sample_ext = Some AssertFailed.
Proof.
  assert (Hbad : ext_checked sample_ext = false) by reflexivity.
  split; [exact Hbad|].
  refine (proj2 (proj2 (ext_toIR_asserts ExprTree sample_ext _)) Hbad).
  intros a Ha. injection Ha as <-. split; reflexivity.
Defined.

Lemma semantic_then_toIR_witness :
  ExtAsmStatement_semantic sample_semantic sample_optimize
    sample_modifiableLvalue 2 4 sample_ext_checked
    = Some (sample_ext_checked, []) /\
  exists call,
    ExtAsmStatement_toIR ExprTree sample_ext_checked = Some (Normal call) /\
    (length (call_outputs call) + length (call_inputs call))%nat = 2%nat.
Proof.
  assert (Hsem : ExtAsmStatement_semantic sample_semantic sample_optimize
                   sample_modifiableLvalue 2 4 sample_ext_checked
                 = Some (sample_ext_checked, [])) by (vm_compute; reflexivity).
  split; [exact Hsem|].
  refine (proj2 (semantic_then_toIR ExprTree sample_semantic sample_optimize
                   sample_modifiableLvalue 2 4 sample_ext_checked
                   sample_ext_checked _ Hsem)).
  intros a Ha. injection Ha as <-. split; reflexivity.
Defined.
